(** * ConcertedRMSDForce: the reference configuration and the RMSD evaluator

    A shallow embedding of [ConcertedRMSDForce] (openmmapi/src/ConcertedRMSDForce.cpp)
    and of [ConcertedRMSDForceImpl] ([initialize], [computeForce] and
    [updateParametersInContext]).

    - A C++ [double] is a binary64 float: Rocq's primitive [float].
    - A [vector<T>] is a [list T]; reading or writing [v[i]] outside the vector
      is undefined behaviour in C++ and is an outcome of its own here.
    - A particle index is a C++ [int], a [Z] here: the code only compares and
      copies indices, it never computes with them.
    - An [OpenMMException] carries its message, and the members of the
      implementation object as they are when it is thrown.
    - The host's side of a call ([CustomCPPForceImpl::initialize],
      [context.systemChanged()]) touches no member and is left out. *)

From Stdlib Require Import ZArith Floats.
From stdpp Require Import gmap strings list pretty.

Local Open Scope Z_scope.
Local Set Warnings "-clear-no-such-hyp".

(** ** Doubles and OpenMM's [Vec3] *)

Definition double := float.

(** The conversion of an [int] to a [double] (exact below 2^53). *)
Definition of_int (n : Z) : double :=
  if decide (n < 0) then PrimFloat.opp (PrimFloat.of_uint63 (Uint63.of_Z (- n)))
  else PrimFloat.of_uint63 (Uint63.of_Z n).

Module Vec3.

Local Open Scope float_scope.

Record t : Type := mk { x : double; y : double; z : double }.

(** [Vec3()] and [Vec3(0.0, 0.0, 0.0)]. *)
Definition zero : t := mk 0 0 0.

(** [v[i]] for [i] in 0..2. *)
Definition get (v : t) (i : nat) : double :=
  match i with
  | O => x v
  | S O => y v
  | _ => z v
  end.

Definition add (a b : t) : t := mk (x a + x b) (y a + y b) (z a + z b).
Definition sub (a b : t) : t := mk (x a - x b) (y a - y b) (z a - z b).
Definition neg (a : t) : t := mk (- x a) (- y a) (- z a).

(** [operator/(double)] and [operator/=(double)] of OpenMM's Vec3.h scale by
    the reciprocal. *)
Definition div (a : t) (rhs : double) : t :=
  let scale := 1 / rhs in
  mk (x a * scale) (y a * scale) (z a * scale).

Definition dot (a b : t) : double := x a * x b + y a * y b + z a * z b.

End Vec3.

(** ** Vectors and the outcome of a call *)

(** [v[i]] with an [int] index: [None] outside the vector. *)
Definition index {A : Type} (v : list A) (i : Z) : option A :=
  if decide (0 ≤ i) then v !! Z.to_nat i else None.

(** [v[i] = a] with an [int] index: [None] outside the vector. *)
Definition assign {A : Type} (v : list A) (i : Z) (a : A) : option (list A) :=
  if decide (0 ≤ i < Z.of_nat (length v)) then Some (<[Z.to_nat i := a]> v) else None.

(** How a call ends: it returns [a]; it throws an exception with the message
    [msg], the members being [a] by then; or it indexes outside a vector. *)
Inductive outcome (A : Type) : Type :=
| Returned (a : A)
| Thrown (msg : string) (a : A)
| OutOfBounds.
Arguments Returned {A} a.
Arguments Thrown {A} msg a.
Arguments OutOfBounds {A}.

(** [for (int i : ps) center += v[i];] *)
Fixpoint sumAt (v : list Vec3.t) (ps : list Z) (center : Vec3.t) : option Vec3.t :=
  match ps with
  | [] => Some center
  | i :: rest => p ← index v i; sumAt v rest (Vec3.add center p)
  end.

(** ** Small matrices and sums *)

(** A [double[3][3]], and TNT's [Array1D<double>] and [Array2D<double>], read
    by index. *)
Definition Mat3 : Type := nat → nat → double.
Definition Array1D : Type := nat → double.
Definition Array2D : Type := nat → nat → double.

Definition mat3 (a00 a01 a02 a10 a11 a12 a20 a21 a22 : double) : Mat3 :=
  λ i j,
    match i, j with
    | 0, 0 => a00 | 0, 1 => a01 | 0, _ => a02
    | 1, 0 => a10 | 1, 1 => a11 | 1, _ => a12
    | _, 0 => a20 | _, 1 => a21 | _, _ => a22
    end%nat.

(** A 4x4 array from its entries, row by row. *)
Definition mat4 (a00 a01 a02 a03 a10 a11 a12 a13 a20 a21 a22 a23 a30 a31 a32 a33 : double)
  : Array2D :=
  λ i j,
    match i, j with
    | 0, 0 => a00 | 0, 1 => a01 | 0, 2 => a02 | 0, _ => a03
    | 1, 0 => a10 | 1, 1 => a11 | 1, 2 => a12 | 1, _ => a13
    | 2, 0 => a20 | 2, 1 => a21 | 2, 2 => a22 | 2, _ => a23
    | _, 0 => a30 | _, 1 => a31 | _, 2 => a32 | _, _ => a33
    end%nat.

(** [1e-20]: the binary64 value nearest to it. *)
Definition threshold : double := 0x1.79ca10c924223p-67%float.

(** [for (k = 0; k < n; k++) acc += term(k);], with the indices in [ks]. *)
Fixpoint accumulate (term : nat → option double) (ks : list nat) (acc : double)
  : option double :=
  match ks with
  | [] => Some acc
  | k :: rest => v ← term k; accumulate term rest (acc + v)%float
  end.

(** ** The force object (ConcertedRMSDForce.cpp) *)

Module ConcertedRMSDForce.

Record t : Type := mk { referencePositions : list Vec3.t; particles : list Z }.

Definition getReferencePositions (f : t) : list Vec3.t := referencePositions f.
Definition getParticles (f : t) : list Z := particles f.

Definition setReferencePositions (positions : list Vec3.t) (f : t) : t :=
  mk positions (particles f).

Definition setParticles (ps : list Z) (f : t) : t :=
  mk (referencePositions f) ps.

End ConcertedRMSDForce.

(** ** The implementation object *)

Module ConcertedRMSDForceImpl.

Import ConcertedRMSDForce.

(** The data members; [owner] is a reference to the force object, whose
    current value is an argument of every call that reads it. *)
Record t : Type := mk {
  particles : list Z;
  numParticles : Z;
  referencePos : list Vec3.t
}.

Definition sizeMismatch : string :=
  "RMSDForce: Number of reference positions does not equal number of particles in the System".
Definition illegalIndex (i : Z) : string :=
  "ConcertedRMSDForce: Illegal particle index for RMSD: " +:+ pretty i.
Definition duplicatedIndex (i : Z) : string :=
  "ConcertedRMSDForce: Duplicated particle index for RMSD: " +:+ pretty i.
Definition sizeChanged : string :=
  "updateParametersInContext: The number of reference positions has changed".

(** The validation loop of [initialize]: the message of the first throw, if any. *)
Fixpoint checkParticles (systemSize : Z) (distinctParticles : gset Z) (ps : list Z)
  : option string :=
  match ps with
  | [] => None
  | i :: rest =>
      if decide (i < 0 ∨ systemSize ≤ i) then Some (illegalIndex i)
      else if decide (i ∈ distinctParticles) then Some (duplicatedIndex i)
      else checkParticles systemSize ({[i]} ∪ distinctParticles) rest
  end.

(** [referencePos = owner.getReferencePositions();] and the centring that
    follows it, the same statements in [initialize] and in
    [updateParametersInContext]. *)
Definition recenter (owner : ConcertedRMSDForce.t) (self : t) : outcome t :=
  let referencePos := getReferencePositions owner in
  match sumAt referencePos (particles self) Vec3.zero with
  | None => OutOfBounds
  | Some center =>
      let center := Vec3.div center (of_int (numParticles self)) in
      Returned (mk (particles self) (numParticles self)
                   ((λ p, Vec3.sub p center) <$> referencePos))
  end.

Definition initialize (systemSize : Z) (owner : ConcertedRMSDForce.t) (self : t)
  : outcome t :=
  if decide (Z.of_nat (length (getReferencePositions owner)) ≠ systemSize)
  then Thrown sizeMismatch self
  else
    let particles := getParticles owner in
    let numParticles := Z.of_nat (length particles) in
    let self := mk particles numParticles (referencePos self) in
    match checkParticles systemSize ∅ particles with
    | Some msg => Thrown msg self
    | None => recenter owner self
    end.

(** *** [computeForce] *)

Section WithEigensolver.

Local Open Scope float_scope.

(** [JAMA::Eigenvalue<double>] (jama/jama_eig.h, a library of OpenMM): for
    a symmetric matrix, [getRealEigenvalues] in ascending order and
    [getV], whose column [k] is an eigenvector of eigenvalue [k]. *)
Variable eigen : Array2D → Array1D * Array2D.

(** The indices of [for (int i = 0; i < numParticles; i++)]. *)
Definition count (self : t) : list nat := seq 0 (Z.to_nat (numParticles self)).

(** The centroid of the selected positions, and [centeredPos]. *)
Definition centroid (self : t) (positions : list Vec3.t) : option Vec3.t :=
  center ← sumAt positions (particles self) Vec3.zero;
  Some (Vec3.div center (of_int (numParticles self))).

Definition centeredPositions (self : t) (positions : list Vec3.t)
  : option (list Vec3.t) :=
  center ← centroid self positions;
  mapM (λ i, pi ← particles self !! i;
             p ← index positions pi;
             Some (Vec3.sub p center))
       (count self).

(** [R[i][j]]. *)
Definition correlation (self : t) (centeredPos : list Vec3.t) (i j : nat)
  : option double :=
  accumulate (λ k, idx ← particles self !! k;
                   c ← centeredPos !! k;
                   r ← index (referencePos self) idx;
                   Some (Vec3.get c i * Vec3.get r j))
             (count self) 0.

Definition correlationMatrix (self : t) (centeredPos : list Vec3.t) : option Mat3 :=
  r00 ← correlation self centeredPos 0 0;
  r01 ← correlation self centeredPos 0 1;
  r02 ← correlation self centeredPos 0 2;
  r10 ← correlation self centeredPos 1 0;
  r11 ← correlation self centeredPos 1 1;
  r12 ← correlation self centeredPos 1 2;
  r20 ← correlation self centeredPos 2 0;
  r21 ← correlation self centeredPos 2 1;
  r22 ← correlation self centeredPos 2 2;
  Some (mat3 r00 r01 r02 r10 r11 r12 r20 r21 r22).

(** The F matrix. *)
Definition quaternionMatrix (R : Mat3) : Array2D :=
  let R00 := (R 0 0)%nat in let R01 := (R 0 1)%nat in let R02 := (R 0 2)%nat in
  let R10 := (R 1 0)%nat in let R11 := (R 1 1)%nat in let R12 := (R 1 2)%nat in
  let R20 := (R 2 0)%nat in let R21 := (R 2 1)%nat in let R22 := (R 2 2)%nat in
  mat4 (R00 + R11 + R22) (R12 - R21) (R20 - R02) (R01 - R10)
       (R12 - R21) (R00 - R11 - R22) (R01 + R10) (R02 + R20)
       (R20 - R02) (R01 + R10) (- R00 + R11 - R22) (R12 + R21)
       (R01 - R10) (R02 + R20) (R12 + R21) (- R00 - R11 + R22).

(** [sum]. *)
Definition sumOfSquares (self : t) (centeredPos : list Vec3.t) : option double :=
  accumulate (λ i, idx ← particles self !! i;
                   c ← centeredPos !! i;
                   r ← index (referencePos self) idx;
                   Some (Vec3.dot c c + Vec3.dot r r))
             (count self) 0.

(** [msd], from [sum] and [values[3]]. *)
Definition meanSquare (self : t) (sum lambda : double) : double :=
  (sum - 2 * lambda) / of_int (numParticles self).

(** The rotation matrix [U], from column 3 of the eigenvectors. *)
Definition rotationMatrix (vectors : Array2D) : Mat3 :=
  let q0 := (vectors 0 3)%nat in
  let q1 := (vectors 1 3)%nat in
  let q2 := (vectors 2 3)%nat in
  let q3 := (vectors 3 3)%nat in
  let q00 := q0 * q0 in let q01 := q0 * q1 in
  let q02 := q0 * q2 in let q03 := q0 * q3 in
  let q11 := q1 * q1 in let q12 := q1 * q2 in let q13 := q1 * q3 in
  let q22 := q2 * q2 in let q23 := q2 * q3 in
  let q33 := q3 * q3 in
  mat3 (q00 + q11 - q22 - q33) (2 * (q12 - q03)) (2 * (q13 + q02))
       (2 * (q12 + q03)) (q00 - q11 + q22 - q33) (2 * (q23 - q01))
       (2 * (q13 - q02)) (2 * (q23 + q01)) (q00 - q11 - q22 + q33).

(** [rotatedRef]: component [j] pairs column [j] of [U] with [p]. *)
Definition rotatedRef (U : Mat3) (p : Vec3.t) : Vec3.t :=
  let p0 := Vec3.get p 0 in
  let p1 := Vec3.get p 1 in
  let p2 := Vec3.get p 2 in
  let U00 := (U 0 0)%nat in let U01 := (U 0 1)%nat in let U02 := (U 0 2)%nat in
  let U10 := (U 1 0)%nat in let U11 := (U 1 1)%nat in let U12 := (U 1 2)%nat in
  let U20 := (U 2 0)%nat in let U21 := (U 2 1)%nat in let U22 := (U 2 2)%nat in
  Vec3.mk (U00 * p0 + U10 * p1 + U20 * p2)
          (U01 * p0 + U11 * p1 + U21 * p2)
          (U02 * p0 + U12 * p1 + U22 * p2).

(** The value stored in [forces[particles[i]]]. *)
Definition forceOn (self : t) (U : Mat3) (rmsd : double) (c p : Vec3.t) : Vec3.t :=
  Vec3.div (Vec3.neg (Vec3.sub c (rotatedRef U p)))
           (rmsd * of_int (numParticles self)).

(** The last loop, over the indices in [ks]. *)
Fixpoint writeForces (self : t) (centeredPos : list Vec3.t) (U : Mat3)
    (rmsd : double) (ks : list nat) (forces : list Vec3.t)
  : option (list Vec3.t) :=
  match ks with
  | [] => Some forces
  | i :: rest =>
      idx ← particles self !! i;
      p ← index (referencePos self) idx;
      c ← centeredPos !! i;
      forces ← assign forces idx (forceOn self U rmsd c p);
      writeForces self centeredPos U rmsd rest forces
  end.

Definition computeForce (self : t) (positions forces : list Vec3.t)
  : outcome (double * list Vec3.t) :=
  let result :=
    centeredPos ← centeredPositions self positions;
    R ← correlationMatrix self centeredPos;
    let F := quaternionMatrix R in
    let '(values, vectors) := eigen F in
    sum ← sumOfSquares self centeredPos;
    let msd := meanSquare self sum (values 3%nat) in
    if msd <? threshold then Some (0, forces)
    else
      let rmsd := PrimFloat.sqrt msd in
      let U := rotationMatrix vectors in
      forces ← writeForces self centeredPos U rmsd (count self) forces;
      Some (rmsd, forces) in
  match result with
  | Some r => Returned r
  | None => OutOfBounds
  end.

End WithEigensolver.

(** *** [updateParametersInContext] *)

(** [for (int i = 0; i < n; i++) particles.push_back(i);] *)
Definition pushAll (particles : list Z) (n : nat) : list Z :=
  particles ++ (Z.of_nat <$> seq 0 n).

Definition updateParametersInContext (owner : ConcertedRMSDForce.t) (self : t)
  : outcome t :=
  if decide (length (referencePos self) ≠ length (getReferencePositions owner))
  then Thrown sizeChanged self
  else
    let particles := getParticles owner in
    let particles :=
      if decide (length particles = 0%nat)
      then pushAll particles (length (referencePos self))
      else particles in
    let numParticles := Z.of_nat (length particles) in
    recenter owner (mk particles numParticles (referencePos self)).

End ConcertedRMSDForceImpl.


(** ** What the statements below speak about *)

Module Spec.

Import ConcertedRMSDForceImpl.
Local Open Scope float_scope.

(** The state that [initialize] establishes for a system of [systemSize]
    particles: distinct indices within the system, counted in
    [numParticles], and one reference position for each particle. *)
Record configured (systemSize : Z) (self : t) : Prop := {
  configured_distinct : NoDup (particles self);
  configured_range : ∀ i, i ∈ particles self → (0 ≤ i < systemSize)%Z;
  configured_count : numParticles self = Z.of_nat (length (particles self));
  configured_reference : Z.of_nat (length (referencePos self)) = systemSize
}.

(** [i] stands at two places of [ps]. *)
Definition twice (i : Z) (ps : list Z) : Prop :=
  ∃ k1 k2 : nat, (k1 < k2)%nat ∧ ps !! k1 = Some i ∧ ps !! k2 = Some i.

(** The selection [updateParametersInContext] stores. *)
Definition updatedParticles (owner : ConcertedRMSDForce.t) (self : t) : list Z :=
  if decide (length (ConcertedRMSDForce.getParticles owner) = 0%nat)
  then pushAll (ConcertedRMSDForce.getParticles owner) (length (referencePos self))
  else ConcertedRMSDForce.getParticles owner.

(** The quantities one evaluation computes before it branches on [msd]. *)
Record quantities : Type := {
  centeredPos : list Vec3.t;
  R : Mat3;
  values : Array1D;
  vectors : Array2D;
  sum : double;
  msd : double
}.

Definition quantitiesOf (eigen : Array2D → Array1D * Array2D) (self : t)
    (positions : list Vec3.t) : option quantities :=
  centeredPos ← centeredPositions self positions;
  R ← correlationMatrix self centeredPos;
  let '(values, vectors) := eigen (quaternionMatrix R) in
  sum ← sumOfSquares self centeredPos;
  Some {| centeredPos := centeredPos; R := R; values := values; vectors := vectors;
          sum := sum; msd := meanSquare self sum (values 3%nat) |}.

(** The specification's words: the current and the centred reference
    positions of the selected particles in selection order, a configuration
    moved to its centroid, a sum over the selected particles (added in that
    order, from zero), [max], the product of a matrix and a vector, and
    eigenvalues in ascending order. *)
Definition selectedPositions (self : t) (positions : list Vec3.t)
  : option (list Vec3.t) :=
  mapM (index positions) (particles self).

Definition selectedReference (self : t) : option (list Vec3.t) :=
  mapM (index (referencePos self)) (particles self).

Definition centered (selected : list Vec3.t) : list Vec3.t :=
  let center := Vec3.div (foldl Vec3.add Vec3.zero selected)
                         (of_int (Z.of_nat (length selected))) in
  (λ p, Vec3.sub p center) <$> selected.



Definition ascending (values : Array1D) : Prop :=
  ∀ k, (k < 3)%nat → (values k <=? values (S k)) = true.

(** The order of two finite doubles of one sign, by exponent and mantissa. *)
Definition lex (e1 : Z) (m1 : positive) (e2 : Z) (m2 : positive) : comparison :=
  match (e1 ?= e2)%Z with
  | Eq => (m1 ?= m2)%positive
  | Lt => Lt
  | Gt => Gt
  end.

Definition sigma (terms : list double) : double := foldl PrimFloat.add 0 terms.

Definition fmax (a b : double) : double := if a <? b then b else a.

Definition correlationSpec (centeredCurrent centeredReference : list Vec3.t)
    (i j : nat) : double :=
  sigma (zip_with (λ c r, Vec3.get c i * Vec3.get r j) centeredCurrent centeredReference).

Definition rmsdSpec (centeredCurrent centeredReference : list Vec3.t)
    (lambdaMax : double) : double :=
  let N := of_int (Z.of_nat (length centeredCurrent)) in
  let squares :=
    sigma (zip_with (λ c r, Vec3.dot c c + Vec3.dot r r)
                    centeredCurrent centeredReference) in
  PrimFloat.sqrt (fmax 0 ((squares - 2 * lambdaMax) / N)).

(** A stand-in for JAMA on a diagonal matrix: the diagonal entries in
    ascending order, and the unit vectors in the matching order. *)
Fixpoint insertBy (key : nat → double) (i : nat) (l : list nat) : list nat :=
  match l with
  | [] => [i]
  | j :: rest => if key i <? key j then i :: l else j :: insertBy key i rest
  end.

Definition diagonalEigen (F : Array2D) : Array1D * Array2D :=
  let order := foldl (λ acc i, insertBy (λ k, F k k) i acc) [] [0; 1; 2; 3]%nat in
  (λ k, let i := nth k order 0%nat in F i i,
   λ i k, if decide (i = nth k order 0%nat) then 1 else 0).

(** [F V = V diag(values)] entry by entry, and the eigenvalues ascend. *)
Definition eigenCheck (F : Array2D) (e : Array1D * Array2D) : bool :=
  let '(values, vectors) := e in
  forallb (λ k,
    forallb (λ i,
      sigma ((λ j, F i j * vectors j k) <$> [0; 1; 2; 3]%nat)
        =? values k * vectors i k)
      [0; 1; 2; 3]%nat)
    [0; 1; 2; 3]%nat
  && forallb (λ k, values k <=? values (S k)) [0; 1; 2]%nat.

(** Sample data. *)
Definition vec (a b c : double) : Vec3.t := Vec3.mk a b c.
Arguments vec (a b c)%_float.

Definition fresh : t := mk [] 0 [].

(** Three particles, of which 1 and 0 are selected, in this order; the
    selected positions are the reference moved apart along x. *)
Definition sampleOwner : ConcertedRMSDForce.t :=
  ConcertedRMSDForce.mk [vec 0 0 0; vec 2 0 0; vec 10 9 9] [1; 0]%Z.
Definition sampleState : t := mk [1; 0]%Z 2 [vec (-1) 0 0; vec 1 0 0; vec 9 9 9].
Definition samplePositions : list Vec3.t := [vec 3 0 0; vec 7 0 0; vec 1 1 1].
Definition sampleForces : list Vec3.t := [vec 7 7 7; vec 7 7 7; vec 8 8 8].



(** The specification's quaternion matrix: the symmetric 4x4 matrix of
    Coutsias et al. for the correlation matrix [S], whose largest eigenvalue
    belongs to the quaternion of the best rotation. *)
Definition coutsiasMatrix (S : Mat3) : Array2D :=
  let Sxx := (S 0 0)%nat in let Sxy := (S 0 1)%nat in let Sxz := (S 0 2)%nat in
  let Syx := (S 1 0)%nat in let Syy := (S 1 1)%nat in let Syz := (S 1 2)%nat in
  let Szx := (S 2 0)%nat in let Szy := (S 2 1)%nat in let Szz := (S 2 2)%nat in
  mat4 (Sxx + Syy + Szz)  (Syz - Szy)         (Szx - Sxz)           (Sxy - Syx)
       (Syz - Szy)        (Sxx - Syy - Szz)   (Sxy + Syx)           (Sxz + Szx)
       (Szx - Sxz)        (Sxy + Syx)         (- Sxx + Syy - Szz)   (Syz + Szy)
       (Sxy - Syx)        (Sxz + Szx)         (Syz + Szy)           (- Sxx - Syy + Szz).

(** A second sample, whose best rotation is not symmetric: four particles,
    of which 0, 1 and 2 are selected; the reference positions of the
    selected ones have their centroid at the origin, and the current
    positions are the reference ones with the axes permuted in a cycle
    (x to z, y to x, z to y) and doubled. Its F matrix has the eigenvalues
    -8, -4, 4, 8; the eigenvector of 8 is (1/2, 1/2, 1/2, 1/2). *)
Definition cyclicOwner : ConcertedRMSDForce.t :=
  ConcertedRMSDForce.mk [vec 1 0 0; vec 0 1 0; vec (-1) (-1) 0; vec 9 9 9] [0; 1; 2]%Z.
Definition cyclicState : t :=
  mk [0; 1; 2]%Z 3 [vec 1 0 0; vec 0 1 0; vec (-1) (-1) 0; vec 9 9 9].
Definition cyclicPositions : list Vec3.t :=
  [vec 0 0 2; vec 2 0 0; vec (-2) 0 (-2); vec 1 1 1].
Definition cyclicForces : list Vec3.t := [vec 7 7 7; vec 7 7 7; vec 7 7 7; vec 8 8 8].

(** A stand-in for JAMA on the F matrix of the second sample: its
    eigenvalues in ascending order and its unit eigenvectors, column by
    column; [0x1.6a09e667f3bcdp-1] is the double nearest to the square root
    of 1/2. *)
Definition cyclicEigen (F : Array2D) : Array1D * Array2D :=
  let h := 0x1.6a09e667f3bcdp-1 in
  (λ k, match k with
        | O => -8
        | S O => -4
        | S (S O) => 4
        | _ => 8
        end,
   mat4 0.5    0     h     0.5
        0.5    0     (- h) 0.5
        (-0.5) h     0     0.5
        (-0.5) (- h) 0     0.5).

End Spec.

(** ** What the further properties speak about *)

Module Further.

Import ConcertedRMSDForceImpl.
Local Open Scope float_scope.

(** An eigensolver that returns the eigenvectors of [eigen] with the other
    sign. *)
Definition negatedVectors (eigen : Array2D → Array1D * Array2D)
  : Array2D → Array1D * Array2D :=
  λ F, let '(values, vectors) := eigen F in (values, λ i j, - vectors i j).

(** The correlation matrix of an empty selection, and its F matrix. *)
Definition zeroCorrelation : Mat3 := mat3 0 0 0 0 0 0 0 0 0.

(** Two vectors hold the same at every index of the selection [ps]. *)
Definition agreeOn {A : Type} (ps : list Z) (v w : list A) : Prop :=
  ∀ i, i ∈ ps → index v i = index w i.

End Further.

(** * Properties *)

Import ConcertedRMSDForce ConcertedRMSDForceImpl Spec Further.

(** ** Vectors read and written by index *)

Section Vectors.

Context {A : Type}.
Implicit Types (v : list A) (i : Z).

Lemma index_Some v i a :
  index v i = Some a ↔ 0 ≤ i ∧ v !! Z.to_nat i = Some a.
Proof. unfold index. case_decide; naive_solver. Qed.

Lemma index_in_range v i :
  0 ≤ i < Z.of_nat (length v) → is_Some (index v i).
Proof.
  intros [Hlo Hhi]. unfold index. rewrite decide_True by done.
  apply lookup_lt_is_Some. lia.
Qed.

Lemma index_out_of_range v i :
  i < 0 ∨ Z.of_nat (length v) ≤ i → index v i = None.
Proof.
  intros Hout. unfold index. case_decide; [|done].
  apply lookup_ge_None. lia.
Qed.

Lemma index_range v i a : index v i = Some a → 0 ≤ i < Z.of_nat (length v).
Proof.
  intros [Hlo Hget]%index_Some. apply lookup_lt_Some in Hget. lia.
Qed.

Lemma assign_Some v i a w :
  assign v i a = Some w ↔
  0 ≤ i < Z.of_nat (length v) ∧ w = <[Z.to_nat i := a]> v.
Proof. unfold assign. case_decide; naive_solver. Qed.

Lemma index_of_nat v (k : nat) : index v (Z.of_nat k) = v !! k.
Proof. unfold index. rewrite decide_True by lia. by rewrite Nat2Z.id. Qed.

End Vectors.

Lemma sumAt_in_range v ps center :
  (∀ i, i ∈ ps → 0 ≤ i < Z.of_nat (length v)) → is_Some (sumAt v ps center).
Proof.
  revert center. induction ps as [|i ps IH]; intros center Hrange; simpl; [by eexists|].
  destruct (index_in_range v i) as [p ->]; [apply Hrange; left|]. simpl.
  apply IH. intros j Hj. apply Hrange. by right.
Qed.

Lemma sumAt_out_of_range v ps center i :
  i ∈ ps → i < 0 ∨ Z.of_nat (length v) ≤ i → sumAt v ps center = None.
Proof.
  revert center. induction ps as [|j ps IH]; intros center Hin Hout; [by inversion Hin|].
  simpl. destruct (index v j) as [p|] eqn:Hj; [simpl|done].
  apply elem_of_cons in Hin as [->|Hin]; [|by apply IH].
  rewrite index_out_of_range in Hj; done.
Qed.

Lemma sumAt_Some_range v ps center s :
  sumAt v ps center = Some s → ∀ i, i ∈ ps → 0 ≤ i < Z.of_nat (length v).
Proof.
  intros Hsum i Hin.
  destruct (decide (0 ≤ i < Z.of_nat (length v))) as [|Hout]; [done|].
  rewrite (sumAt_out_of_range v ps center i) in Hsum; [done|done|lia].
Qed.

(** ** The validation loop *)

Lemma twice_cons_here i ps : i ∈ ps → twice i (i :: ps).
Proof.
  intros [k Hk]%list_elem_of_lookup. exists 0%nat, (S k). split_and!; [lia|done|done].
Qed.

Lemma twice_cons i j ps : twice i ps → twice i (j :: ps).
Proof.
  intros (k1 & k2 & Hlt & H1 & H2). exists (S k1), (S k2). split_and!; [lia|done|done].
Qed.

Lemma twice_not_NoDup i ps : twice i ps → ¬ NoDup ps.
Proof.
  intros (k1 & k2 & Hlt & H1 & H2) Hnodup.
  pose proof (NoDup_lookup _ _ _ _ Hnodup H1 H2). lia.
Qed.

Lemma checkParticles_None systemSize distinct ps :
  checkParticles systemSize distinct ps = None ↔
  (∀ i, i ∈ ps → 0 ≤ i < systemSize ∧ i ∉ distinct) ∧ NoDup ps.
Proof.
  revert distinct. induction ps as [|i ps IH]; intros distinct; simpl.
  { split; [|done]. intros _. split; [by intros i Hi; inversion Hi|constructor]. }
  case_decide as Hrange.
  { split; [done|]. intros [Hall _]. destruct (Hall i); [left|lia]. }
  case_decide as Hseen.
  { split; [done|]. intros [Hall _]. destruct (Hall i) as [_ []]; [left|done]. }
  rewrite IH. split.
  - intros [Hall Hnodup]. split.
    + intros j [->|Hj]%elem_of_cons; [split; [lia|done]|].
      destruct (Hall j Hj) as [? Hnot]. split; [done|set_solver].
    + constructor; [|done]. intros Hi. destruct (Hall i Hi) as [_ Hnot]. set_solver.
  - intros [Hall Hnodup]. apply NoDup_cons in Hnodup as [Hfresh Hnodup].
    split; [|done]. intros j Hj. destruct (Hall j) as [? ?]; [by right|].
    split; [done|]. set_solver.
Qed.

Lemma checkParticles_Some systemSize distinct ps msg :
  checkParticles systemSize distinct ps = Some msg →
  ∃ i, i ∈ ps ∧
    (msg = illegalIndex i ∧ (i < 0 ∨ systemSize ≤ i)
     ∨ msg = duplicatedIndex i ∧ (i ∈ distinct ∨ twice i ps)).
Proof.
  revert distinct. induction ps as [|i ps IH]; intros distinct; simpl; [done|].
  case_decide as Hrange.
  { intros [= <-]. exists i. split; [left|]. by left. }
  case_decide as Hseen.
  { intros [= <-]. exists i. split; [left|]. right. split; [done|by left]. }
  intros (j & Hj & Hcase)%IH. exists j. split; [by right|].
  destruct Hcase as [?|[-> [Hin|Htwice]]]; [by left|right..].
  - split; [done|]. apply elem_of_union in Hin as [->%elem_of_singleton|?].
    + right. by apply twice_cons_here.
    + by left.
  - split; [done|]. right. by apply twice_cons.
Qed.

(** ** The two configuration operations, case by case *)

Lemma recenter_Returned owner self self' :
  recenter owner self = Returned self' ↔
  ∃ total, sumAt (getReferencePositions owner) (particles self) Vec3.zero = Some total ∧
    self' = ConcertedRMSDForceImpl.mk (particles self) (numParticles self)
              ((λ p, Vec3.sub p (Vec3.div total (of_int (numParticles self))))
                 <$> getReferencePositions owner).
Proof.
  unfold recenter.
  destruct (sumAt _ _ _) as [total|]; [|naive_solver].
  split; [intros [= <-]; by eexists|]. by intros (? & [= <-] & ->).
Qed.

Lemma recenter_not_Thrown owner self msg self' : recenter owner self ≠ Thrown msg self'.
Proof. unfold recenter. by destruct (sumAt _ _ _). Qed.

Lemma recenter_OutOfBounds owner self :
  recenter owner self = OutOfBounds ↔
  sumAt (getReferencePositions owner) (particles self) Vec3.zero = None.
Proof. unfold recenter. by destruct (sumAt _ _ _). Qed.

Lemma initialize_Thrown systemSize owner self msg self' :
  initialize systemSize owner self = Thrown msg self' ↔
  (Z.of_nat (length (getReferencePositions owner)) ≠ systemSize
   ∧ msg = sizeMismatch ∧ self' = self)
  ∨ (Z.of_nat (length (getReferencePositions owner)) = systemSize
     ∧ checkParticles systemSize ∅ (getParticles owner) = Some msg
     ∧ self' = ConcertedRMSDForceImpl.mk (getParticles owner)
                 (Z.of_nat (length (getParticles owner))) (referencePos self)).
Proof.
  unfold initialize. case_decide as Hsize.
  { split; [intros [= <- <-]; by left|]. intros [(_ & -> & ->)|[? _]]; done. }
  destruct (checkParticles _ _ _) as [m|] eqn:Hcheck.
  - split; [intros [= <- <-]; right; split_and!; [lia|done..]|].
    intros [[? _]|(_ & [= <-] & ->)]; done.
  - split; [by intros ?%recenter_not_Thrown|]. intros [[? _]|(_ & ? & _)]; done.
Qed.

Lemma initialize_Returned systemSize owner self self' :
  initialize systemSize owner self = Returned self' ↔
  Z.of_nat (length (getReferencePositions owner)) = systemSize
  ∧ checkParticles systemSize ∅ (getParticles owner) = None
  ∧ ∃ total,
      sumAt (getReferencePositions owner) (getParticles owner) Vec3.zero = Some total ∧
      self' = ConcertedRMSDForceImpl.mk (getParticles owner)
                (Z.of_nat (length (getParticles owner)))
                ((λ p, Vec3.sub p
                         (Vec3.div total (of_int (Z.of_nat (length (getParticles owner))))))
                   <$> getReferencePositions owner).
Proof.
  unfold initialize. case_decide as Hsize; [naive_solver|].
  destruct (checkParticles _ _ _) as [m|] eqn:Hcheck; [naive_solver|].
  rewrite recenter_Returned. simpl. split; [|naive_solver].
  intros ?. split_and!; [lia|done..].
Qed.

(** After validation the centring loop of [initialize] stays inside the
    reference positions. *)
Lemma initialize_in_bounds systemSize owner self :
  initialize systemSize owner self ≠ OutOfBounds.
Proof.
  unfold initialize. case_decide as Hsize; [done|].
  destruct (checkParticles _ _ _) as [m|] eqn:Hcheck; [done|].
  apply checkParticles_None in Hcheck as [Hall _].
  rewrite recenter_OutOfBounds. simpl.
  destruct (sumAt_in_range (getReferencePositions owner) (getParticles owner) Vec3.zero)
    as [total ->]; [|done].
  intros i Hi. destruct (Hall i Hi). lia.
Qed.

Lemma initialize_configured systemSize owner self self' :
  initialize systemSize owner self = Returned self' → configured systemSize self'.
Proof.
  intros (Hsize & [Hall Hnodup]%checkParticles_None & total & _ & ->)%initialize_Returned.
  split; simpl; [done| |done|by rewrite length_fmap].
  intros i Hi. by destruct (Hall i Hi).
Qed.

Lemma update_Thrown owner self msg self' :
  updateParametersInContext owner self = Thrown msg self' ↔
  length (referencePos self) ≠ length (getReferencePositions owner)
  ∧ msg = sizeChanged ∧ self' = self.
Proof.
  unfold updateParametersInContext. case_decide as Hsize; [naive_solver|].
  split; [by intros ?%recenter_not_Thrown|]. by intros [? _].
Qed.

Lemma update_Returned owner self self' :
  updateParametersInContext owner self = Returned self' ↔
  length (referencePos self) = length (getReferencePositions owner)
  ∧ ∃ total,
      sumAt (getReferencePositions owner) (updatedParticles owner self) Vec3.zero
        = Some total ∧
      self' = ConcertedRMSDForceImpl.mk (updatedParticles owner self)
                (Z.of_nat (length (updatedParticles owner self)))
                ((λ p, Vec3.sub p
                         (Vec3.div total
                            (of_int (Z.of_nat (length (updatedParticles owner self))))))
                   <$> getReferencePositions owner).
Proof.
  unfold updateParametersInContext, updatedParticles.
  case_decide as Hsize; [naive_solver|].
  rewrite recenter_Returned. simpl. split; [|naive_solver].
  intros ?. by split.
Qed.

Lemma update_OutOfBounds owner self :
  updateParametersInContext owner self = OutOfBounds ↔
  length (referencePos self) = length (getReferencePositions owner)
  ∧ sumAt (getReferencePositions owner) (updatedParticles owner self) Vec3.zero = None.
Proof.
  unfold updateParametersInContext, updatedParticles.
  case_decide as Hsize; [naive_solver|].
  rewrite recenter_OutOfBounds. simpl. split; [|naive_solver].
  intros ?. by split.
Qed.

(** ** Claims about configuration *)

(** C2, as the specification states it, fails: configuring two reference
    positions with the selection [0] moves the position of particle 1, which
    is outside the selection, from (5,0,0) to (4,0,0). *)
Lemma initialize_translates_unselected :
  initialize 2 (ConcertedRMSDForce.mk [vec 1 0 0; vec 5 0 0] [0]) fresh
    = Returned (ConcertedRMSDForceImpl.mk [0] 1 [vec 0 0 0; vec 4 0 0])
  ∧ (1 ∉ [0])
  ∧ [vec 0 0 0; vec 4 0 0] !! 1%nat ≠ [vec 1 0 0; vec 5 0 0] !! 1%nat.
Proof.
  split_and!; [reflexivity|set_solver|].
  discriminate.
Qed.

(** C2, amended: after [initialize], and after [updateParametersInContext],
    every stored reference position, selected or not, is the position the
    owner supplies minus the centroid of the selected ones. *)
Theorem recentering_translates_every_position systemSize owner self self' :
  initialize systemSize owner self = Returned self'
  ∨ updateParametersInContext owner self = Returned self' →
  ∃ total,
    sumAt (getReferencePositions owner) (particles self') Vec3.zero = Some total ∧
    referencePos self'
      = (λ p, Vec3.sub p (Vec3.div total (of_int (Z.of_nat (length (particles self'))))))
          <$> getReferencePositions owner.
Proof.
  intros [(_ & _ & total & Hsum & ->)%initialize_Returned
         |(_ & total & Hsum & ->)%update_Returned]; by exists total.
Qed.

Lemma recentering_translates_every_position_example :
  initialize 2 (ConcertedRMSDForce.mk [vec 1 0 0; vec 5 0 0] [0]) fresh
    = Returned (ConcertedRMSDForceImpl.mk [0] 1 [vec 0 0 0; vec 4 0 0])
  ∧ ∃ total,
      sumAt [vec 1 0 0; vec 5 0 0] [0] Vec3.zero = Some total ∧
      [vec 0 0 0; vec 4 0 0]
        = (λ p, Vec3.sub p (Vec3.div total (of_int 1))) <$> [vec 1 0 0; vec 5 0 0].
Proof.
  split; [reflexivity|].
  apply (recentering_translates_every_position 2
           (ConcertedRMSDForce.mk [vec 1 0 0; vec 5 0 0] [0]) fresh
           (ConcertedRMSDForceImpl.mk [0] 1 [vec 0 0 0; vec 4 0 0])).
  left. reflexivity.
Defined.

(** C3, as the specification states it, fails: on a new implementation
    object, whose selection is empty, [initialize] with the selection [0; 0]
    throws for the duplicate, and the stored selection is then [0; 0]. *)
Lemma initialize_duplicate_overwrites_selection :
  initialize 2 (ConcertedRMSDForce.mk [vec 1 0 0; vec 5 0 0] [0; 0]) fresh
    = Thrown "ConcertedRMSDForce: Duplicated particle index for RMSD: 0"
             (ConcertedRMSDForceImpl.mk [0; 0] 2 [])
  ∧ particles (ConcertedRMSDForceImpl.mk [0; 0] 2 []) ≠ particles fresh.
Proof. split; [reflexivity|discriminate]. Qed.

(** C3, amended: a size mismatch, in [initialize] or in
    [updateParametersInContext], leaves every member as it was; an illegal or
    duplicated index in [initialize] leaves the stored reference positions as
    they were, while the stored selection and count are already those of the
    rejected selection. *)
Theorem failed_configuration_state systemSize owner self msg self' :
  initialize systemSize owner self = Thrown msg self'
  ∨ updateParametersInContext owner self = Thrown msg self' →
  referencePos self' = referencePos self
  ∧ (msg = sizeMismatch ∨ msg = sizeChanged → self' = self)
  ∧ (msg ≠ sizeMismatch → msg ≠ sizeChanged →
     particles self' = getParticles owner
     ∧ numParticles self' = Z.of_nat (length (getParticles owner))).
Proof.
  intros [[(_ & -> & ->)|(_ & Hcheck & ->)]%initialize_Thrown
         |(_ & -> & ->)%update_Thrown]; [done| |done].
  simpl. split_and!; [done| |done].
  apply checkParticles_Some in Hcheck as (i & _ & [[-> _]|[-> _]]);
    intros [?|?]; discriminate.
Qed.

Lemma failed_configuration_state_example :
  (initialize 2 (ConcertedRMSDForce.mk [vec 1 0 0; vec 5 0 0] [0; 0]) fresh
     = Thrown (duplicatedIndex 0) (ConcertedRMSDForceImpl.mk [0; 0] 2 []))
  ∧ referencePos (ConcertedRMSDForceImpl.mk [0; 0] 2 []) = referencePos fresh
  ∧ particles (ConcertedRMSDForceImpl.mk [0; 0] 2 []) = [0; 0]
  ∧ numParticles (ConcertedRMSDForceImpl.mk [0; 0] 2 []) = Z.of_nat (length [0; 0]).
Proof.
  pose proof (failed_configuration_state 2
                (ConcertedRMSDForce.mk [vec 1 0 0; vec 5 0 0] [0; 0]) fresh
                (duplicatedIndex 0) (ConcertedRMSDForceImpl.mk [0; 0] 2 [])
                (or_introl eq_refl)) as (Href & _ & Hsel).
  split; [reflexivity|]. split; [exact Href|].
  apply Hsel; discriminate.
Defined.

(** C6: [initialize] throws exactly when the number of reference positions
    differs from the number of particles of the system, or an index of the
    selection lies outside [0, systemSize), or an index stands twice in the
    selection; and the message of an index error ends with the decimal of an
    index of the selection that is illegal, or duplicated, as the message says. *)
Theorem initialize_throws_iff systemSize owner self :
  ((∃ msg self', initialize systemSize owner self = Thrown msg self') ↔
   Z.of_nat (length (getReferencePositions owner)) ≠ systemSize
   ∨ (∃ i, i ∈ getParticles owner ∧ (i < 0 ∨ systemSize ≤ i))
   ∨ ¬ NoDup (getParticles owner))
  ∧ (∀ msg self', initialize systemSize owner self = Thrown msg self' →
     msg = sizeMismatch
     ∨ ∃ i, i ∈ getParticles owner ∧
        (msg = "ConcertedRMSDForce: Illegal particle index for RMSD: " +:+ pretty i
           ∧ (i < 0 ∨ systemSize ≤ i)
         ∨ msg = "ConcertedRMSDForce: Duplicated particle index for RMSD: " +:+ pretty i
           ∧ twice i (getParticles owner)))
  ∧ ((∀ msg self', initialize systemSize owner self ≠ Thrown msg self') →
     ∃ self', initialize systemSize owner self = Returned self').
Proof.
  split_and!.
  - split.
    + intros (msg & self' & [(Hsize & _)|(_ & Hcheck & _)]%initialize_Thrown); [by left|].
      right. apply checkParticles_Some in Hcheck as (i & Hi & [[_ Hout]|[_ [Hin|Htwice]]]).
      * left. by exists i.
      * set_solver.
      * right. by eapply twice_not_NoDup.
    + intros Hbad.
      destruct (decide (Z.of_nat (length (getReferencePositions owner)) = systemSize))
        as [Hsize|Hsize]; last first.
      { exists sizeMismatch, self. apply initialize_Thrown. by left. }
      destruct (checkParticles systemSize ∅ (getParticles owner)) as [msg|] eqn:Hcheck.
      { eexists msg, _. apply initialize_Thrown. right. by split_and!. }
      apply checkParticles_None in Hcheck as [Hall Hnodup].
      destruct Hbad as [?|[(i & Hi & Hout)|?]]; [done| |done].
      destruct (Hall i Hi). lia.
  - intros msg self' [(_ & -> & _)|(_ & Hcheck & _)]%initialize_Thrown; [by left|].
    right. apply checkParticles_Some in Hcheck as (i & Hi & [[-> Hout]|[-> [Hin|Htwice]]]).
    + exists i. split; [done|]. by left.
    + set_solver.
    + exists i. split; [done|]. by right.
  - intros Hnothrow. pose proof (initialize_in_bounds systemSize owner self) as Hin.
    destruct (initialize systemSize owner self) as [self'|msg self'|]; [|naive_solver|done].
    by exists self'.
Qed.

(** The three errors of [initialize], each with its message. *)
Lemma initialize_errors :
  initialize 3 (ConcertedRMSDForce.mk [vec 1 0 0; vec 5 0 0] [0]) fresh
    = Thrown "RMSDForce: Number of reference positions does not equal number of particles in the System"
             fresh
  ∧ initialize 2 (ConcertedRMSDForce.mk [vec 1 0 0; vec 5 0 0] [0; 2]) fresh
    = Thrown "ConcertedRMSDForce: Illegal particle index for RMSD: 2"
             (ConcertedRMSDForceImpl.mk [0; 2] 2 [])
  ∧ initialize 2 (ConcertedRMSDForce.mk [vec 1 0 0; vec 5 0 0] [-1]) fresh
    = Thrown "ConcertedRMSDForce: Illegal particle index for RMSD: -1"
             (ConcertedRMSDForceImpl.mk [-1] 1 [])
  ∧ initialize 2 (ConcertedRMSDForce.mk [vec 1 0 0; vec 5 0 0] [1; 0; 1]) fresh
    = Thrown "ConcertedRMSDForce: Duplicated particle index for RMSD: 1"
             (ConcertedRMSDForceImpl.mk [1; 0; 1] 3 []).
Proof. split_and!; reflexivity. Qed.

(** C7: with an empty selection in the owner and a reference of unchanged
    length, [updateParametersInContext] returns, and the selection it stores
    is 0, 1, ..., n-1 for n the length of the stored reference positions. *)
Theorem update_empty_selection owner self :
  getParticles owner = [] →
  length (referencePos self) = length (getReferencePositions owner) →
  ∃ self', updateParametersInContext owner self = Returned self'
    ∧ particles self' = Z.of_nat <$> seq 0 (length (referencePos self))
    ∧ numParticles self' = Z.of_nat (length (referencePos self)).
Proof.
  intros Hempty Hsize.
  assert (updatedParticles owner self = Z.of_nat <$> seq 0 (length (referencePos self)))
    as Hall.
  { unfold updatedParticles, pushAll. by rewrite Hempty. }
  destruct (sumAt_in_range (getReferencePositions owner)
              (updatedParticles owner self) Vec3.zero) as [total Hsum].
  { rewrite Hall. intros i (k & -> & Hk%elem_of_seq)%list_elem_of_fmap. lia. }
  eexists. split; [apply update_Returned; split; [done|by exists total]|].
  simpl. rewrite Hall. by rewrite length_fmap, length_seq.
Qed.

Lemma update_empty_selection_example :
  ∃ self',
    updateParametersInContext
      (ConcertedRMSDForce.mk [vec 1 0 0; vec 5 0 0] [])
      (ConcertedRMSDForceImpl.mk [0] 1 [vec 0 0 0; vec 4 0 0]) = Returned self'
    ∧ particles self' = [0; 1]
    ∧ numParticles self' = 2.
Proof.
  exact (update_empty_selection
           (ConcertedRMSDForce.mk [vec 1 0 0; vec 5 0 0] [])
           (ConcertedRMSDForceImpl.mk [0] 1 [vec 0 0 0; vec 4 0 0])
           eq_refl eq_refl).
Defined.

(** C8: when the owner's reference positions and the stored ones differ in
    length, [updateParametersInContext] throws and leaves every member as it
    was. *)
Theorem update_rejects_changed_length owner self :
  length (referencePos self) ≠ length (getReferencePositions owner) →
  updateParametersInContext owner self
    = Thrown "updateParametersInContext: The number of reference positions has changed"
             self.
Proof. intros Hsize. apply update_Thrown. by split_and!. Qed.

Lemma update_rejects_changed_length_example :
  length [vec 0 0 0; vec 4 0 0] ≠ length [vec 1 0 0]
  ∧ updateParametersInContext
      (ConcertedRMSDForce.mk [vec 1 0 0] [0])
      (ConcertedRMSDForceImpl.mk [0] 1 [vec 0 0 0; vec 4 0 0])
    = Thrown sizeChanged (ConcertedRMSDForceImpl.mk [0] 1 [vec 0 0 0; vec 4 0 0]).
Proof.
  assert (length [vec 0 0 0; vec 4 0 0] ≠ length [vec 1 0 0]) as Hsize
    by (simpl; lia).
  split; [exact Hsize|].
  exact (update_rejects_changed_length
           (ConcertedRMSDForce.mk [vec 1 0 0] [0])
           (ConcertedRMSDForceImpl.mk [0] 1 [vec 0 0 0; vec 4 0 0]) Hsize).
Defined.

(** The state the examples of [updateParametersInContext] start from. *)
Lemma configured_for_particle_1 :
  initialize 2 (ConcertedRMSDForce.mk [vec 1 0 0; vec 5 0 0] [1]) fresh
  = Returned (ConcertedRMSDForceImpl.mk [1] 1 [vec (-4) 0 0; vec 0 0 0]).
Proof. reflexivity. Qed.

(** C9 at its failing inputs. [initialize] with an empty selection returns:
    the stored selection is empty, the count is 0, and the division by it
    turns every reference coordinate into NaN. [updateParametersInContext]
    with the selection [0; 0] returns and stores the duplicate. *)
Theorem configuration_without_invariant :
  initialize 1 (ConcertedRMSDForce.mk [vec 1 2 3] []) fresh
    = Returned (ConcertedRMSDForceImpl.mk [] 0 [vec nan nan nan])
  ∧ updateParametersInContext
      (ConcertedRMSDForce.mk [vec 1 0 0; vec 5 0 0] [0; 0])
      (ConcertedRMSDForceImpl.mk [1] 1 [vec (-4) 0 0; vec 0 0 0])
    = Returned (ConcertedRMSDForceImpl.mk [0; 0] 2 [vec 0 0 0; vec 4 0 0]).
Proof. split; reflexivity. Qed.

(** C10: with a selection that is not empty and a reference of unchanged
    length, [updateParametersInContext] never throws, whatever the indices;
    an index outside the reference positions makes the centring loop read
    outside the vector; and when every index is inside, the call returns and
    stores the selection as given, duplicates included. *)
Theorem update_validates_nothing owner self :
  getParticles owner ≠ [] →
  length (referencePos self) = length (getReferencePositions owner) →
  (∀ msg self', updateParametersInContext owner self ≠ Thrown msg self')
  ∧ ((∃ i, i ∈ getParticles owner
           ∧ (i < 0 ∨ Z.of_nat (length (referencePos self)) ≤ i)) →
     updateParametersInContext owner self = OutOfBounds)
  ∧ ((∀ i, i ∈ getParticles owner → 0 ≤ i < Z.of_nat (length (referencePos self))) →
     ∃ self', updateParametersInContext owner self = Returned self'
       ∧ particles self' = getParticles owner).
Proof.
  intros Hnonempty Hsize.
  assert (updatedParticles owner self = getParticles owner) as Hkept.
  { unfold updatedParticles. case_decide as Hlen; [|done].
    by apply length_zero_iff_nil in Hlen. }
  split_and!.
  - intros msg self' (Hchanged & _)%update_Thrown. done.
  - intros (i & Hi & Hout). apply update_OutOfBounds. split; [done|].
    rewrite Hkept. apply (sumAt_out_of_range _ _ _ i); [done|]. by rewrite <- Hsize.
  - intros Hall.
    destruct (sumAt_in_range (getReferencePositions owner)
                (getParticles owner) Vec3.zero) as [total Hsum].
    { intros i Hi. rewrite <- Hsize. by apply Hall. }
    eexists. split; [apply update_Returned; split; [done|]|].
    + exists total. by rewrite Hkept.
    + done.
Qed.

Lemma update_validates_nothing_example :
  (updateParametersInContext
     (ConcertedRMSDForce.mk [vec 1 0 0; vec 5 0 0] [0; 2])
     (ConcertedRMSDForceImpl.mk [1] 1 [vec (-4) 0 0; vec 0 0 0]) = OutOfBounds)
  ∧ ∀ msg self',
      updateParametersInContext
        (ConcertedRMSDForce.mk [vec 1 0 0; vec 5 0 0] [0; 2])
        (ConcertedRMSDForceImpl.mk [1] 1 [vec (-4) 0 0; vec 0 0 0]) ≠ Thrown msg self'.
Proof.
  assert (getParticles (ConcertedRMSDForce.mk [vec 1 0 0; vec 5 0 0] [0; 2]) ≠ [])
    as Hnonempty by discriminate.
  destruct (update_validates_nothing
              (ConcertedRMSDForce.mk [vec 1 0 0; vec 5 0 0] [0; 2])
              (ConcertedRMSDForceImpl.mk [1] 1 [vec (-4) 0 0; vec 0 0 0])
              Hnonempty eq_refl) as (Hnothrow & Hout & _).
  split; [|exact Hnothrow].
  apply Hout. exists 2. split; [set_solver|]. right. simpl. lia.
Defined.

(** ** Orders on doubles *)

Local Open Scope float_scope.

Lemma SFcompare_Lt_Gt a b : SFcompare a b = Some Lt → SFcompare b a = Some Gt.
Proof.
  destruct a as [sa|sa| |sa ma ea], b as [sb|sb| |sb mb eb]; simpl;
    try destruct sa; try destruct sb; try congruence;
    change (PosDef.Pos.compare_cont Eq) with Pos.compare; intros [= Hc];
    rewrite (Z.compare_antisym ea eb), (Pos.compare_antisym ma mb);
    destruct (ea ?= eb)%Z; simpl in *; try discriminate; try reflexivity;
    destruct (ma ?= mb)%positive; simpl in *; try discriminate; reflexivity.
Qed.

Lemma threshold_leb_not_ltb m : (threshold <=? m) = true → (m <? threshold) = false.
Proof.
  rewrite leb_spec, ltb_spec. unfold SFleb, SFltb.
  destruct (SFcompare (Prim2SF m) (Prim2SF threshold)) as [[]|] eqn:Hc; try reflexivity.
  apply SFcompare_Lt_Gt in Hc. rewrite Hc. discriminate.
Qed.

Lemma threshold_leb_positive m : (threshold <=? m) = true → (0 <? m) = true.
Proof.
  rewrite leb_spec, ltb_spec. unfold SFleb, SFltb.
  change (Prim2SF threshold) with (S754_finite false 6646139978924579 (-119)).
  change (Prim2SF 0) with (S754_zero false).
  destruct (Prim2SF m) as [s|s| |s mm e]; simpl; try destruct s; simpl;
    try discriminate; reflexivity.
Qed.

Lemma fmax_above_threshold m : (threshold <=? m) = true → fmax 0 m = m.
Proof. intros Hm. unfold fmax. by rewrite threshold_leb_positive. Qed.

Lemma lex_spec e1 m1 e2 m2 :
  match lex e1 m1 e2 m2 with
  | Lt => (e1 < e2)%Z ∨ (e1 = e2 ∧ (m1 < m2)%positive)
  | Eq => e1 = e2 ∧ m1 = m2
  | Gt => (e2 < e1)%Z ∨ (e1 = e2 ∧ (m2 < m1)%positive)
  end.
Proof.
  unfold lex. destruct (Z.compare_spec e1 e2); auto.
  destruct (Pos.compare_spec m1 m2); auto.
Qed.

Lemma lex_opp e1 m1 e2 m2 :
  match (e1 ?= e2)%Z with
  | Eq => CompOpp (m1 ?= m2)%positive
  | Lt => Gt
  | Gt => Lt
  end = CompOpp (lex e1 m1 e2 m2).
Proof. unfold lex. destruct (e1 ?= e2)%Z; reflexivity. Qed.

Lemma SFleb_trans a b c : SFleb a b = true → SFleb b c = true → SFleb a c = true.
Proof.
  unfold SFleb.
  destruct a as [sa|sa| |sa ma ea], b as [sb|sb| |sb mb eb], c as [sc|sc| |sc mc ec];
    simpl; try destruct sa; try destruct sb; try destruct sc; simpl;
    try congruence; try reflexivity;
    change (PosDef.Pos.compare_cont Eq) with Pos.compare;
    rewrite ?lex_opp; fold (lex ea ma eb mb) (lex eb mb ec mc) (lex ea ma ec mc);
    pose proof (lex_spec ea ma eb mb); pose proof (lex_spec eb mb ec mc);
    pose proof (lex_spec ea ma ec mc);
    destruct (lex ea ma eb mb), (lex eb mb ec mc), (lex ea ma ec mc); simpl;
    try congruence; try reflexivity; intros _ _; exfalso; lia.
Qed.

Lemma leb_trans (a b c : double) :
  (a <=? b) = true → (b <=? c) = true → (a <=? c) = true.
Proof. rewrite !leb_spec. apply SFleb_trans. Qed.

(** A double that bounds another is not NaN, and so bounds itself. *)
Lemma leb_refl_r (a b : double) : (a <=? b) = true → (b <=? b) = true.
Proof.
  rewrite !leb_spec. unfold SFleb.
  destruct (Prim2SF a) as [sa|sa| |sa ma ea], (Prim2SF b) as [sb|sb| |sb mb eb];
    simpl; try destruct sa; try destruct sb; simpl; try congruence; try reflexivity;
    intros _; change (PosDef.Pos.compare_cont Eq) with Pos.compare;
    by rewrite Z.compare_refl, Pos.compare_refl.
Qed.

(** Of eigenvalues in ascending order the last is the largest. *)
Lemma ascending_last (values : Array1D) (k : nat) :
  ascending values → (k ≤ 3)%nat → (values k <=? values 3%nat) = true.
Proof.
  intros Hasc Hk.
  pose proof (Hasc 0%nat ltac:(lia)) as H01.
  pose proof (Hasc 1%nat ltac:(lia)) as H12.
  pose proof (Hasc 2%nat ltac:(lia)) as H23.
  destruct k as [|[|[|[|k]]]]; [| | | |lia].
  - eapply leb_trans; [exact H01|]. eapply leb_trans; [exact H12|exact H23].
  - eapply leb_trans; [exact H12|exact H23].
  - exact H23.
  - by eapply leb_refl_r.
Qed.


(** ** The loops of one evaluation *)

Lemma accumulate_zip {A B : Type} (g : A → B → double) (term : nat → option double)
    (l1 : list A) (l2 : list B) (s : nat) (acc : double) :
  length l1 = length l2 →
  (∀ k a b, l1 !! k = Some a → l2 !! k = Some b → term (s + k)%nat = Some (g a b)) →
  accumulate term (seq s (length l1)) acc
    = Some (foldl PrimFloat.add acc (zip_with g l1 l2)).
Proof.
  revert l2 s acc.
  induction l1 as [|a l1 IH]; intros [|b l2] s acc Hlen Hterm; simplify_eq/=; [done|].
  specialize (Hterm 0%nat a b eq_refl eq_refl) as Hhead.
  rewrite Nat.add_0_r in Hhead. rewrite Hhead. simpl.
  apply IH; [done|]. intros k a' b' Ha Hb.
  replace (S s + k)%nat with (s + S k)%nat by lia. by apply Hterm.
Qed.

Lemma sumAt_foldl v ps selected center :
  mapM (index v) ps = Some selected →
  sumAt v ps center = Some (foldl Vec3.add center selected).
Proof.
  revert selected center. induction ps as [|i ps IH]; intros selected center Hsel.
  { by injection Hsel as <-. }
  apply mapM_Some in Hsel. inversion Hsel as [|? p ? rest Hp Hrest]; subst.
  simpl. rewrite Hp. simpl. apply IH. by apply mapM_Some.
Qed.

Lemma mapM_index_in_range {A : Type} (v : list A) (ps : list Z) :
  (∀ i, i ∈ ps → (0 ≤ i < Z.of_nat (length v))%Z) → is_Some (mapM (index v) ps).
Proof.
  intros Hrange. apply mapM_is_Some, Forall_forall. intros i Hi.
  by apply index_in_range, Hrange.
Qed.

Lemma count_configured systemSize self :
  configured systemSize self → count self = seq 0 (length (particles self)).
Proof. intros [_ _ Hcount _]. unfold count. by rewrite Hcount, Nat2Z.id. Qed.

(** The selected positions and [centeredPos], for a configured state. *)
Lemma centeredPositions_configured systemSize self positions :
  configured systemSize self →
  Z.of_nat (length positions) = systemSize →
  ∃ selected,
    selectedPositions self positions = Some selected
    ∧ centeredPositions self positions = Some (centered selected).
Proof.
  intros Hconf Hlen. pose proof (count_configured _ _ Hconf) as Hcount.
  destruct Hconf as [_ Hrange HN _].
  destruct (mapM_index_in_range positions (particles self)) as [selected Hsel].
  { intros i Hi. rewrite Hlen. by apply Hrange. }
  exists selected. split; [done|].
  unfold centeredPositions, centroid, centered.
  rewrite (sumAt_foldl _ _ _ _ Hsel). simpl. rewrite Hcount, HN.
  apply mapM_Some in Hsel. rewrite <- (Forall2_length _ _ _ Hsel).
  apply mapM_Some, Forall2_same_length_lookup.
  split; [by rewrite length_seq, length_fmap, (Forall2_length _ _ _ Hsel)|].
  intros k k' c [-> _]%lookup_seq (p & -> & Hp)%list_lookup_fmap_Some. simpl.
  destruct (Forall2_lookup_r _ _ _ _ _ Hsel Hp) as (i & Hi & Hpi).
  rewrite Hi. simpl. by rewrite Hpi.
Qed.

(** The quantities of one evaluation, for a configured state, in the
    specification's words. *)
Lemma evaluation_quantities eigen systemSize self positions :
  configured systemSize self →
  Z.of_nat (length positions) = systemSize →
  ∃ Q selected centeredReference,
    quantitiesOf eigen self positions = Some Q
    ∧ selectedPositions self positions = Some selected
    ∧ centeredPos Q = centered selected
    ∧ selectedReference self = Some centeredReference
    ∧ length (centeredPos Q) = length (particles self)
    ∧ length centeredReference = length (particles self)
    ∧ (∀ i j, R Q i j = correlationSpec (centeredPos Q) centeredReference
                          (i `min` 2) (j `min` 2))
    ∧ sum Q = sigma (zip_with (λ c r, Vec3.dot c c + Vec3.dot r r)
                              (centeredPos Q) centeredReference)
    ∧ values Q = (eigen (quaternionMatrix (R Q))).1
    ∧ vectors Q = (eigen (quaternionMatrix (R Q))).2
    ∧ msd Q = meanSquare self (sum Q) (values Q 3%nat).
Proof.
  intros Hconf Hlen. pose proof (count_configured _ _ Hconf) as Hcount.
  destruct (centeredPositions_configured _ _ _ Hconf Hlen) as (selected & Hsel & Hcp).
  set (cp := centered selected) in Hcp.
  destruct Hconf as [_ Hrange HN Href].
  destruct (mapM_index_in_range (referencePos self) (particles self)) as [cr Hcr].
  { intros i Hi. rewrite Href. by apply Hrange. }
  pose proof Hsel as Hsel'%mapM_Some%Forall2_length.
  pose proof Hcr as Hcr'%mapM_Some.
  assert (length cp = length cr) as Hsame.
  { unfold cp, centered. rewrite length_fmap, <- Hsel'. by apply Forall2_length in Hcr'. }
  assert (length cp = length (particles self)) as Hcplen.
  { unfold cp, centered. by rewrite length_fmap. }
  assert (∀ (g : Vec3.t → Vec3.t → double),
    accumulate (λ k, idx ← particles self !! k;
                     c ← cp !! k;
                     r ← index (referencePos self) idx;
                     Some (g c r)) (count self) 0
    = Some (sigma (zip_with g cp cr))) as Hloop.
  { intros g. rewrite Hcount, <- Hcplen. apply accumulate_zip; [done|].
    intros k c r Hc Hr. simpl.
    destruct (Forall2_lookup_r _ _ _ _ _ Hcr' Hr) as (i & -> & Hi). simpl.
    rewrite Hc. simpl. by rewrite Hi. }
  assert (∀ i j, correlation self cp i j = Some (correlationSpec cp cr i j)) as Hcorr.
  { intros i j. apply (Hloop (λ c r, Vec3.get c i * Vec3.get r j)). }
  set (Rm := mat3 (correlationSpec cp cr 0 0) (correlationSpec cp cr 0 1)
                  (correlationSpec cp cr 0 2) (correlationSpec cp cr 1 0)
                  (correlationSpec cp cr 1 1) (correlationSpec cp cr 1 2)
                  (correlationSpec cp cr 2 0) (correlationSpec cp cr 2 1)
                  (correlationSpec cp cr 2 2)).
  set (squares := sigma (zip_with (λ c r, Vec3.dot c c + Vec3.dot r r) cp cr)).
  assert (sumOfSquares self cp = Some squares) as Hsquares.
  { apply (Hloop (λ c r, Vec3.dot c c + Vec3.dot r r)). }
  exists {| centeredPos := cp; R := Rm;
            values := (eigen (quaternionMatrix Rm)).1;
            vectors := (eigen (quaternionMatrix Rm)).2;
            sum := squares;
            msd := meanSquare self squares ((eigen (quaternionMatrix Rm)).1 3%nat) |},
         selected, cr.
  split_and!; [|done|done|done|done|by rewrite <- Hsame| |done..].
  - unfold quantitiesOf, correlationMatrix. rewrite Hcp. simpl.
    rewrite !Hcorr. simpl. fold Rm. destruct (eigen _) as [values vectors].
    by rewrite Hsquares.
  - intros [|[|[|i]]] [|[|[|j]]]; reflexivity.
Qed.

(** [computeForce] after its quantities: the branch on [msd] and the last loop. *)
Lemma computeForce_quantities eigen self positions forces Q :
  quantitiesOf eigen self positions = Some Q →
  computeForce eigen self positions forces
  = if msd Q <? threshold then Returned (0, forces)
    else match writeForces self (centeredPos Q) (rotationMatrix (vectors Q))
                 (PrimFloat.sqrt (msd Q)) (count self) forces with
         | Some forces' => Returned (PrimFloat.sqrt (msd Q), forces')
         | None => OutOfBounds
         end.
Proof.
  unfold quantitiesOf, computeForce.
  destruct (centeredPositions self positions) as [cp|]; [simpl|done].
  destruct (correlationMatrix self cp) as [Rm|]; [simpl|done].
  destruct (eigen (quaternionMatrix Rm)) as [values vectors].
  destruct (sumOfSquares self cp) as [squares|]; [simpl|done].
  intros [= <-]. simpl.
  destruct (meanSquare self squares (values 3%nat) <? threshold); [done|].
  by destruct (writeForces _ _ _ _ _ _).
Qed.

(** When [msd] is below the threshold the call returns 0 and the forces it
    was given. *)
Lemma computeForce_degenerate eigen self positions forces Q :
  quantitiesOf eigen self positions = Some Q →
  (msd Q <? threshold) = true →
  computeForce eigen self positions forces = Returned (0, forces).
Proof. intros HQ Hmsd. by rewrite (computeForce_quantities _ _ _ _ _ HQ), Hmsd. Qed.

(** The last loop over distinct indices: every force it is due to write is
    there at the end, and every other entry is as it was. *)
Lemma writeForces_spec self cp U rmsd ks forces :
  NoDup ks →
  NoDup (particles self) →
  (∀ k, k ∈ ks → ∃ i p c,
      particles self !! k = Some i ∧ index (referencePos self) i = Some p
      ∧ cp !! k = Some c ∧ (0 ≤ i < Z.of_nat (length forces))%Z) →
  ∃ forces',
    writeForces self cp U rmsd ks forces = Some forces'
    ∧ length forces' = length forces
    ∧ (∀ j : nat, (∀ k, k ∈ ks → particles self !! k ≠ Some (Z.of_nat j)) →
         forces' !! j = forces !! j)
    ∧ (∀ k i p c, k ∈ ks → particles self !! k = Some i →
         index (referencePos self) i = Some p → cp !! k = Some c →
         index forces' i = Some (forceOn self U rmsd c p)).
Proof.
  intros Hks Hdistinct. revert forces.
  induction ks as [|k ks IH]; intros forces Hall; simpl.
  { exists forces. split_and!; [done..|]. intros k i p c Hk. by inversion Hk. }
  apply NoDup_cons in Hks as [Hfresh Hks].
  destruct (Hall k) as (i & p & c & Hi & Hp & Hc & Hbound); [left|].
  rewrite Hi. simpl. rewrite Hp. simpl. rewrite Hc. simpl.
  unfold assign. rewrite decide_True by done. simpl.
  destruct (IH Hks (<[Z.to_nat i := forceOn self U rmsd c p]> forces))
    as (forces' & -> & Hlen & Hframe & Hwritten).
  { intros k' Hk'. destruct (Hall k') as (i' & p' & c' & ? & ? & ? & ?); [by right|].
    exists i', p', c'. by rewrite length_insert. }
  exists forces'. rewrite length_insert in Hlen. split_and!; [done..| |].
  - intros j Hj. rewrite Hframe by (intros k' Hk'; apply Hj; by right).
    apply list_lookup_insert_ne. intros Heq.
    apply (Hj k); [left|]. rewrite Hi. f_equal. lia.
  - intros k' i' p' c' [->|Hk']%elem_of_cons Hi' Hp' Hc'.
    + simplify_eq. rewrite <- (Z2Nat.id i) at 1 by lia. rewrite index_of_nat.
      rewrite Hframe.
      * apply list_lookup_insert_eq. lia.
      * intros k' Hk' Hsame. rewrite Z2Nat.id in Hsame by lia.
        pose proof (NoDup_lookup _ _ _ _ Hdistinct Hi Hsame). by subst.
    + by eapply Hwritten.
Qed.

(** For a configured state and [msd] at or above the threshold the call
    returns the square root of [msd], and the forces array with the force of
    every selected particle written and every other entry as it was. *)
Lemma computeForce_regular eigen systemSize self positions forces Q :
  configured systemSize self →
  Z.of_nat (length forces) = systemSize →
  quantitiesOf eigen self positions = Some Q →
  length (centeredPos Q) = length (particles self) →
  (threshold <=? msd Q) = true →
  ∃ forces',
    computeForce eigen self positions forces = Returned (PrimFloat.sqrt (msd Q), forces')
    ∧ length forces' = length forces
    ∧ (∀ k i, particles self !! k = Some i →
         ∃ c p, centeredPos Q !! k = Some c ∧ index (referencePos self) i = Some p
           ∧ index forces' i
             = Some (forceOn self (rotationMatrix (vectors Q)) (PrimFloat.sqrt (msd Q)) c p))
    ∧ (∀ j : nat, Z.of_nat j ∉ particles self → forces' !! j = forces !! j).
Proof.
  intros Hconf Hforces HQ Hcp Hmsd. pose proof (count_configured _ _ Hconf) as Hcount.
  destruct Hconf as [Hdistinct Hrange HN Href].
  assert (∀ k, k ∈ seq 0 (length (particles self)) → ∃ i p c,
    particles self !! k = Some i ∧ index (referencePos self) i = Some p
    ∧ centeredPos Q !! k = Some c ∧ (0 ≤ i < Z.of_nat (length forces))%Z) as Hall.
  { intros k [_ Hk]%elem_of_seq. simpl in Hk.
    destruct (lookup_lt_is_Some_2 (particles self) k Hk) as [i Hi].
    pose proof (Hrange i (list_elem_of_lookup_2 _ _ _ Hi)) as Hi'.
    destruct (index_in_range (referencePos self) i) as [p Hp]; [by rewrite Href|].
    destruct (lookup_lt_is_Some_2 (centeredPos Q) k) as [c Hc]; [by rewrite Hcp|].
    exists i, p, c. by rewrite Hforces. }
  destruct (writeForces_spec self (centeredPos Q) (rotationMatrix (vectors Q))
              (PrimFloat.sqrt (msd Q)) _ forces (NoDup_seq 0 _) Hdistinct Hall)
    as (forces' & Hwrite & Hlen & Hframe & Hwritten).
  exists forces'. split_and!; [|done| |].
  - rewrite (computeForce_quantities _ _ _ _ _ HQ), (threshold_leb_not_ltb _ Hmsd).
    by rewrite Hcount, Hwrite.
  - intros k i Hi.
    assert (k ∈ seq 0 (length (particles self))) as Hk.
    { apply elem_of_seq. apply lookup_lt_Some in Hi. lia. }
    destruct (Hall k Hk) as (i' & p & c & Hi' & Hp & Hc & _). simplify_eq.
    exists c, p. split_and!; [done..|]. by eapply Hwritten.
  - intros j Hj. apply Hframe. intros k _ Hk. apply Hj.
    by eapply list_elem_of_lookup_2.
Qed.

(** ** Claims about the evaluation *)

(** The sample evaluation: F is diag(4, 4, -4, -4), [msd] is 1. *)
Lemma sample_configured :
  initialize 3 sampleOwner fresh = Returned sampleState ∧ configured 3 sampleState.
Proof.
  assert (initialize 3 sampleOwner fresh = Returned sampleState) as Hinit by reflexivity.
  split; [exact Hinit|]. exact (initialize_configured _ _ _ _ Hinit).
Qed.

(** Reads [value] as the [field] of the quantities of the sample evaluation. *)
Ltac read_sample HQ field value H :=
  assert (field <$> quantitiesOf diagonalEigen sampleState samplePositions = Some value)
    as H by reflexivity;
  rewrite HQ in H; injection H as H.

Lemma sample_msd Q :
  quantitiesOf diagonalEigen sampleState samplePositions = Some Q → msd Q = 1.
Proof. intros HQ. by read_sample HQ msd 1 Hmsd. Qed.

(** The stand-in eigensolver is right on the F matrix of the sample. *)
Lemma sample_eigen Q :
  quantitiesOf diagonalEigen sampleState samplePositions = Some Q →
  eigenCheck (quaternionMatrix (R Q)) (values Q, vectors Q) = true.
Proof.
  intros HQ.
  by read_sample HQ (λ Q, eigenCheck (quaternionMatrix (R Q)) (values Q, vectors Q))
       true Hcheck.
Qed.

Lemma sample_ascending Q :
  quantitiesOf diagonalEigen sampleState samplePositions = Some Q →
  ascending (values Q).
Proof.
  intros HQ.
  read_sample HQ (λ Q, forallb (λ k, values Q k <=? values Q (S k)) [0; 1; 2]%nat)
    true Hcheck.
  apply andb_prop in Hcheck as [H01 Hcheck].
  apply andb_prop in Hcheck as [H12 Hcheck].
  apply andb_prop in Hcheck as [H23 _].
  intros k Hk. destruct k as [|[|[|k]]]; [done..|lia].
Qed.

Lemma sample_evaluation :
  computeForce diagonalEigen sampleState samplePositions sampleForces
  = Returned (1, [vec 0.5 (-0) (-0); vec (-0.5) (-0) (-0); vec 8 8 8]).
Proof. reflexivity. Qed.

(** C1, the branch it speaks of: when [msd] is below the threshold the call
    returns 0, and the forces array is the one it was given, whatever it
    holds at the selected indices. *)
Theorem computeForce_below_threshold eigen self positions forces m :
  msd <$> quantitiesOf eigen self positions = Some m →
  (m <? threshold) = true →
  computeForce eigen self positions forces = Returned (0, forces).
Proof.
  intros Hm Hbelow.
  destruct (quantitiesOf eigen self positions) as [Q|] eqn:HQ; [|done].
  injection Hm as <-. by apply (computeForce_degenerate _ _ _ _ Q).
Qed.

(** C1 at its failing input: one particle at its reference position, and a
    forces array that holds (7,7,7) for it. [msd] is 0, the call returns 0,
    and the force of the selected particle is still (7,7,7). *)
Lemma computeForce_coincident_keeps_forces :
  initialize 1 (ConcertedRMSDForce.mk [vec 1 2 3] [0%Z]) fresh
    = Returned (ConcertedRMSDForceImpl.mk [0%Z] 1 [vec 0 0 0])
  ∧ msd <$> quantitiesOf diagonalEigen (ConcertedRMSDForceImpl.mk [0%Z] 1 [vec 0 0 0])
                         [vec 1 2 3] = Some 0
  ∧ (0 <? threshold) = true
  ∧ computeForce diagonalEigen (ConcertedRMSDForceImpl.mk [0%Z] 1 [vec 0 0 0])
                 [vec 1 2 3] [vec 7 7 7]
    = Returned (0, [vec 7 7 7]).
Proof.
  split; [reflexivity|]. split; [reflexivity|]. split; [reflexivity|].
  exact (computeForce_below_threshold diagonalEigen
           (ConcertedRMSDForceImpl.mk [0%Z] 1 [vec 0 0 0])
           [vec 1 2 3] [vec 7 7 7] 0 eq_refl eq_refl).
Defined.

(** The stand-in eigensolver is right on the matrix of that input, the zero
    matrix. *)
Lemma coincident_eigen :
  (λ Q, eigenCheck (quaternionMatrix (R Q)) (values Q, vectors Q))
    <$> quantitiesOf diagonalEigen (ConcertedRMSDForceImpl.mk [0%Z] 1 [vec 0 0 0])
                     [vec 1 2 3]
  = Some true.
Proof. reflexivity. Qed.

(** The same with a forces array that is used again, as a host does from one
    step to the next: after the sample evaluation, an evaluation at the
    reference positions themselves returns 0 and the forces of the step
    before. *)
Lemma computeForce_aligned_keeps_earlier_forces :
  computeForce diagonalEigen sampleState samplePositions sampleForces
    = Returned (1, [vec 0.5 (-0) (-0); vec (-0.5) (-0) (-0); vec 8 8 8])
  ∧ computeForce diagonalEigen sampleState
      (ConcertedRMSDForce.getReferencePositions sampleOwner)
      [vec 0.5 (-0) (-0); vec (-0.5) (-0) (-0); vec 8 8 8]
    = Returned (0, [vec 0.5 (-0) (-0); vec (-0.5) (-0) (-0); vec 8 8 8]).
Proof. split; reflexivity. Qed.


Lemma quaternionMatrix_coutsias (S : Mat3) : quaternionMatrix S = coutsiasMatrix S.
Proof. reflexivity. Qed.

(** The second sample: its state is the one [initialize] leaves, the
    stand-in eigensolver is right on its F matrix, [msd] is 4/3, and the
    evaluation writes, for each selected particle, the centred position
    minus the reference position with its axes permuted (x to z, y to x,
    z to y), negated and divided by [rmsd * 3]. *)
Lemma cyclic_configured :
  initialize 4 cyclicOwner fresh = Returned cyclicState ∧ configured 4 cyclicState.
Proof.
  assert (initialize 4 cyclicOwner fresh = Returned cyclicState) as Hinit by reflexivity.
  split; [exact Hinit|]. exact (initialize_configured _ _ _ _ Hinit).
Qed.

Lemma cyclic_quantities :
  (λ Q, (centeredPos Q, msd Q,
         [values Q 0; values Q 1; values Q 2; values Q 3]%nat,
         [vectors Q 0 3; vectors Q 1 3; vectors Q 2 3; vectors Q 3 3]%nat,
         eigenCheck (coutsiasMatrix (R Q)) (values Q, vectors Q)))
    <$> quantitiesOf cyclicEigen cyclicState cyclicPositions
  = Some ([vec 0 0 2; vec 2 0 0; vec (-2) 0 (-2)], 4 / 3,
          [-8; -4; 4; 8], [0.5; 0.5; 0.5; 0.5], true).
Proof. reflexivity. Qed.

Lemma cyclic_msd Q :
  quantitiesOf cyclicEigen cyclicState cyclicPositions = Some Q → msd Q = 4 / 3.
Proof.
  intros HQ.
  assert (msd <$> quantitiesOf cyclicEigen cyclicState cyclicPositions = Some (4 / 3))
    as Hmsd by reflexivity.
  rewrite HQ in Hmsd. by injection Hmsd.
Qed.

Lemma cyclic_ascending Q :
  quantitiesOf cyclicEigen cyclicState cyclicPositions = Some Q → ascending (values Q).
Proof.
  intros HQ.
  assert ((λ Q, forallb (λ k, values Q k <=? values Q (S k)) [0; 1; 2]%nat)
            <$> quantitiesOf cyclicEigen cyclicState cyclicPositions = Some true)
    as Hcheck by reflexivity.
  rewrite HQ in Hcheck. injection Hcheck as Hcheck.
  apply andb_prop in Hcheck as [H01 Hcheck].
  apply andb_prop in Hcheck as [H12 Hcheck].
  apply andb_prop in Hcheck as [H23 _].
  intros k Hk. destruct k as [|[|[|k]]]; [done..|lia].
Qed.





(** C5: for a configured state, arrays of the size of the system, and [msd]
    at or above the threshold, the call returns
    [sqrt(max(0, (sum - 2 lambda) / N))]. Here the centred current positions
    are the selected positions minus their centroid; [sum] adds, over the
    selected particles in selection order, the squared norms of the centred
    current and of the centred reference position; [R[i][j]] adds, over the
    selected particles, the products
    [centeredCurrent[k][i] * centeredReference[k][j]]; F is the 4x4 matrix
    of Coutsias et al. of [R]; and [lambda] is [values[3]] of the eigenvalues
    the eigensolver returns for F, the largest of them when they ascend, as
    JAMA returns them. *)
Theorem computeForce_returns_rmsd_of_largest_eigenvalue
    eigen systemSize self positions forces :
  configured systemSize self →
  Z.of_nat (length positions) = systemSize →
  Z.of_nat (length forces) = systemSize →
  ∃ Q selected centeredReference,
    quantitiesOf eigen self positions = Some Q
    ∧ selectedPositions self positions = Some selected
    ∧ centeredPos Q = centered selected
    ∧ selectedReference self = Some centeredReference
    ∧ (∀ i j, (i < 3)%nat → (j < 3)%nat →
         R Q i j = correlationSpec (centeredPos Q) centeredReference i j)
    ∧ values Q = (eigen (coutsiasMatrix (R Q))).1
    ∧ (ascending (values Q) →
       ∀ k, (k ≤ 3)%nat → (values Q k <=? values Q 3%nat) = true)
    ∧ ((threshold <=? msd Q) = true →
       ∃ forces',
         computeForce eigen self positions forces
         = Returned (rmsdSpec (centeredPos Q) centeredReference (values Q 3%nat),
                     forces')).
Proof.
  intros Hconf Hpositions Hforces.
  destruct (evaluation_quantities eigen _ _ _ Hconf Hpositions)
    as (Q & selected & cr & HQ & Hsel & Hcentered & Hcr & Hcp & _
        & HR & Hsum & Hvalues & _ & Hmsd).
  exists Q, selected, cr.
  split_and!; [done..| |by rewrite <- quaternionMatrix_coutsias| |].
  - intros i j Hi Hj. rewrite HR. by rewrite !Nat.min_l by lia.
  - intros Hasc k Hk. by apply ascending_last.
  - intros Hregular.
    destruct (computeForce_regular _ _ _ _ _ _ Hconf Hforces HQ Hcp Hregular)
      as (forces' & Hcall & _).
    exists forces'. rewrite Hcall. do 2 f_equal. unfold rmsdSpec.
    rewrite <- Hsum, Hcp, <- (configured_count _ _ Hconf).
    change ((sum Q - 2 * values Q 3%nat) / of_int (numParticles self))
      with (meanSquare self (sum Q) (values Q 3%nat)).
    by rewrite <- Hmsd, (fmax_above_threshold _ Hregular).
Qed.

Lemma computeForce_returns_rmsd_of_largest_eigenvalue_example :
  configured 4 cyclicState
  ∧ ∃ Q centeredReference,
      quantitiesOf cyclicEigen cyclicState cyclicPositions = Some Q
      ∧ selectedReference cyclicState = Some centeredReference
      ∧ values Q = (cyclicEigen (coutsiasMatrix (R Q))).1
      ∧ (threshold <=? msd Q) = true
      ∧ (∀ k, (k ≤ 3)%nat → (values Q k <=? values Q 3%nat) = true)
      ∧ ∃ forces',
          computeForce cyclicEigen cyclicState cyclicPositions cyclicForces
          = Returned (rmsdSpec (centeredPos Q) centeredReference (values Q 3%nat),
                      forces').
Proof.
  destruct cyclic_configured as [_ Hconf]. split; [exact Hconf|].
  destruct (computeForce_returns_rmsd_of_largest_eigenvalue cyclicEigen 4 cyclicState
              cyclicPositions cyclicForces Hconf eq_refl eq_refl)
    as (Q & selected & cr & HQ & _ & _ & Hcr & _ & Hvalues & Hlast & Hrmsd).
  assert ((threshold <=? msd Q) = true) as Hmsd
    by (rewrite (cyclic_msd Q HQ); reflexivity).
  exists Q, cr. split; [exact HQ|]. split; [exact Hcr|]. split; [exact Hvalues|].
  split; [exact Hmsd|].
  split; [exact (Hlast (cyclic_ascending Q HQ))|]. exact (Hrmsd Hmsd).
Defined.

(** * Further properties of the code *)

Local Open Scope Z_scope.

(** ** Configuration *)

(** X1: a call of [initialize] that returns has stored the owner's selection,
    its indices distinct and within the system, their number in
    [numParticles], and one reference position for each particle of the
    system. *)
Theorem initialize_establishes_selection systemSize owner self self' :
  initialize systemSize owner self = Returned self' →
  particles self' = getParticles owner
  ∧ NoDup (particles self')
  ∧ (∀ i, i ∈ particles self' → 0 ≤ i < systemSize)
  ∧ numParticles self' = Z.of_nat (length (particles self'))
  ∧ Z.of_nat (length (referencePos self')) = systemSize.
Proof.
  intros Hinit. destruct (initialize_configured _ _ _ _ Hinit) as [Hdistinct Hrange HN Href].
  split_and!; [|done..].
  by apply initialize_Returned in Hinit as (_ & _ & total & _ & ->).
Qed.

Lemma initialize_establishes_selection_example :
  initialize 3 sampleOwner fresh = Returned sampleState
  ∧ particles sampleState = [1; 0]
  ∧ NoDup (particles sampleState)
  ∧ (∀ i, i ∈ particles sampleState → 0 ≤ i < 3)
  ∧ numParticles sampleState = Z.of_nat (length (particles sampleState))
  ∧ Z.of_nat (length (referencePos sampleState)) = 3.
Proof.
  split; [reflexivity|].
  exact (initialize_establishes_selection 3 sampleOwner fresh sampleState eq_refl).
Defined.

(** X2: [initialize] never indexes outside a vector, whatever indices the
    owner's selection holds: the loop that reads [referencePos[i]] runs only
    after every index passed the range check against the size that the
    reference positions were found to have. *)
Theorem initialize_reads_within_bounds systemSize owner self :
  initialize systemSize owner self ≠ OutOfBounds.
Proof.
  destruct (initialize systemSize owner self) as [self'|msg self'|] eqn:Hcall; [done..|].
  by apply initialize_in_bounds in Hcall.
Qed.

(** The validation loop stops at the first index that fails a check: the
    indices before it pass both checks, and an index reported as duplicated
    is within range. *)
Lemma checkParticles_first systemSize distinct ps msg :
  checkParticles systemSize distinct ps = Some msg →
  ∃ (k : nat) i, ps !! k = Some i
    ∧ checkParticles systemSize distinct (take k ps) = None
    ∧ (msg = illegalIndex i ∧ (i < 0 ∨ systemSize ≤ i)
       ∨ msg = duplicatedIndex i ∧ 0 ≤ i < systemSize
         ∧ (i ∈ distinct ∨ i ∈ take k ps)).
Proof.
  revert distinct. induction ps as [|i ps IH]; intros distinct; simpl; [done|].
  case_decide as Hrange.
  { intros [= <-]. exists 0%nat, i. split_and!; [done..|]. by left. }
  case_decide as Hseen.
  { intros [= <-]. exists 0%nat, i. split_and!; [done..|]. right.
    split; [done|]. split; [lia|by left]. }
  intros (k & j & Hj & Hprefix & Hcase)%IH. exists (S k), j. split_and!; [done| |].
  - simpl. by rewrite decide_False, decide_False.
  - destruct Hcase as [?|(-> & ? & Hin)]; [by left|right].
    split; [done|]. split; [lia|]. simpl. set_solver.
Qed.

(** X3: when the number of reference positions is right and [initialize]
    throws, the index in the message is the first one, in the order of the
    selection, that fails a check: every index before it is within range and
    distinct from the others before it; it is either out of range, or within
    range and equal to an earlier index. *)
Theorem initialize_reports_first_offender systemSize owner self msg self' :
  initialize systemSize owner self = Thrown msg self' →
  Z.of_nat (length (getReferencePositions owner)) = systemSize →
  ∃ (k : nat) i, getParticles owner !! k = Some i
    ∧ NoDup (take k (getParticles owner))
    ∧ (∀ j, j ∈ take k (getParticles owner) → 0 ≤ j < systemSize)
    ∧ (msg = "ConcertedRMSDForce: Illegal particle index for RMSD: " +:+ pretty i
         ∧ (i < 0 ∨ systemSize ≤ i)
       ∨ msg = "ConcertedRMSDForce: Duplicated particle index for RMSD: " +:+ pretty i
         ∧ 0 ≤ i < systemSize ∧ i ∈ take k (getParticles owner)).
Proof.
  intros [(Hsize & _)|(_ & Hcheck & _)]%initialize_Thrown Hright; [done|].
  apply checkParticles_first in Hcheck as (k & i & Hi & Hprefix & Hcase).
  apply checkParticles_None in Hprefix as [Hall Hdistinct].
  exists k, i. split_and!; [done..| |].
  - intros j Hj. by destruct (Hall j Hj).
  - destruct Hcase as [?|(-> & ? & [Hin|Hin])]; [by left|set_solver|right; done].
Qed.

Lemma initialize_reports_first_offender_example :
  initialize 2 (ConcertedRMSDForce.mk [vec 1 0 0; vec 5 0 0] [1; 0; 1; 7]) fresh
    = Thrown "ConcertedRMSDForce: Duplicated particle index for RMSD: 1"
             (ConcertedRMSDForceImpl.mk [1; 0; 1; 7] 4 [])
  ∧ ∃ (k : nat) i, [1; 0; 1; 7] !! k = Some i
      ∧ NoDup (take k [1; 0; 1; 7])
      ∧ (∀ j, j ∈ take k [1; 0; 1; 7] → 0 ≤ j < 2)
      ∧ ("ConcertedRMSDForce: Duplicated particle index for RMSD: 1"
           = "ConcertedRMSDForce: Illegal particle index for RMSD: " +:+ pretty i
           ∧ (i < 0 ∨ 2 ≤ i)
         ∨ "ConcertedRMSDForce: Duplicated particle index for RMSD: 1"
           = "ConcertedRMSDForce: Duplicated particle index for RMSD: " +:+ pretty i
           ∧ 0 ≤ i < 2 ∧ i ∈ take k [1; 0; 1; 7]).
Proof.
  split; [reflexivity|].
  exact (initialize_reports_first_offender 2
           (ConcertedRMSDForce.mk [vec 1 0 0; vec 5 0 0] [1; 0; 1; 7]) fresh
           "ConcertedRMSDForce: Duplicated particle index for RMSD: 1"
           (ConcertedRMSDForceImpl.mk [1; 0; 1; 7] 4 []) eq_refl eq_refl).
Defined.

(** X4: a call of [initialize] that returns has assigned every member: the
    state it leaves does not depend on the state it found. *)
Theorem initialize_overwrites_every_member systemSize owner self1 self2 self' :
  initialize systemSize owner self1 = Returned self' →
  initialize systemSize owner self2 = Returned self'.
Proof. rewrite !initialize_Returned. done. Qed.

Lemma initialize_overwrites_every_member_example :
  initialize 3 sampleOwner fresh = Returned sampleState
  ∧ initialize 3 sampleOwner
      (ConcertedRMSDForceImpl.mk [5; 5] (-1) [vec 1 2 3]) = Returned sampleState.
Proof.
  split; [reflexivity|].
  exact (initialize_overwrites_every_member 3 sampleOwner fresh
           (ConcertedRMSDForceImpl.mk [5; 5] (-1) [vec 1 2 3]) sampleState eq_refl).
Defined.

(** X5: [updateParametersInContext] is idempotent: after a call that
    returned, a second call with the same owner returns the same state,
    because the centring starts again from the owner's positions and not from
    the stored, centred ones. *)
Theorem update_twice owner self self' :
  updateParametersInContext owner self = Returned self' →
  updateParametersInContext owner self' = Returned self'.
Proof.
  intros (Hsize & total & Hsum & ->)%update_Returned.
  assert (∀ refs, updatedParticles owner
            (ConcertedRMSDForceImpl.mk (updatedParticles owner self)
               (Z.of_nat (length (updatedParticles owner self)))
               (refs <$> getReferencePositions owner))
          = updatedParticles owner self) as Hsame.
  { intros refs. unfold updatedParticles. simpl. by rewrite length_fmap, Hsize. }
  apply update_Returned. simpl. split; [by rewrite length_fmap|].
  exists total. by rewrite !Hsame.
Qed.

Lemma update_twice_example :
  updateParametersInContext
    (ConcertedRMSDForce.mk [vec 1 0 0; vec 5 0 0] [])
    (ConcertedRMSDForceImpl.mk [0] 1 [vec 0 0 0; vec 4 0 0])
  = Returned (ConcertedRMSDForceImpl.mk [0; 1] 2 [vec (-2) 0 0; vec 2 0 0])
  ∧ updateParametersInContext
      (ConcertedRMSDForce.mk [vec 1 0 0; vec 5 0 0] [])
      (ConcertedRMSDForceImpl.mk [0; 1] 2 [vec (-2) 0 0; vec 2 0 0])
    = Returned (ConcertedRMSDForceImpl.mk [0; 1] 2 [vec (-2) 0 0; vec 2 0 0]).
Proof.
  split; [reflexivity|].
  exact (update_twice (ConcertedRMSDForce.mk [vec 1 0 0; vec 5 0 0] [])
           (ConcertedRMSDForceImpl.mk [0] 1 [vec 0 0 0; vec 4 0 0])
           (ConcertedRMSDForceImpl.mk [0; 1] 2 [vec (-2) 0 0; vec 2 0 0]) eq_refl).
Defined.

(** X6: after [initialize] returned for an owner with a selection that is
    not empty, [updateParametersInContext] with the same, unchanged owner
    returns the very state [initialize] left. *)
Theorem update_after_initialize systemSize owner self self' :
  initialize systemSize owner self = Returned self' →
  getParticles owner ≠ [] →
  updateParametersInContext owner self' = Returned self'.
Proof.
  intros (Hsize & _ & total & Hsum & ->)%initialize_Returned Hnonempty.
  assert (∀ ps n refs, updatedParticles owner (ConcertedRMSDForceImpl.mk ps n refs)
                       = getParticles owner) as Hkept.
  { intros ps n refs. unfold updatedParticles. case_decide as Hlen; [|done].
    by apply length_zero_iff_nil in Hlen. }
  apply update_Returned. simpl. split; [by rewrite length_fmap|].
  exists total. by rewrite !Hkept.
Qed.

Lemma update_after_initialize_example :
  initialize 3 sampleOwner fresh = Returned sampleState
  ∧ getParticles sampleOwner ≠ []
  ∧ updateParametersInContext sampleOwner sampleState = Returned sampleState.
Proof.
  assert (getParticles sampleOwner ≠ []) as Hnonempty by discriminate.
  split; [reflexivity|]. split; [exact Hnonempty|].
  exact (update_after_initialize 3 sampleOwner fresh sampleState eq_refl Hnonempty).
Defined.

(** X7: a call of [updateParametersInContext] that returns leaves a selection
    whose every index is a position of the stored reference, counted in
    [numParticles], with as many reference positions as before; and the
    selection is empty only when there is no reference position at all. *)
Theorem update_establishes_bounds owner self self' :
  updateParametersInContext owner self = Returned self' →
  (∀ i, i ∈ particles self' → 0 ≤ i < Z.of_nat (length (referencePos self')))
  ∧ numParticles self' = Z.of_nat (length (particles self'))
  ∧ length (referencePos self') = length (referencePos self)
  ∧ (particles self' = [] → referencePos self' = []).
Proof.
  intros (Hsize & total & Hsum & ->)%update_Returned. simpl.
  rewrite length_fmap. split_and!; [|done..|].
  - by apply (sumAt_Some_range _ _ _ _ Hsum).
  - unfold updatedParticles, pushAll. case_decide as Hlen.
    + apply length_zero_iff_nil in Hlen. rewrite Hlen. simpl.
      intros Hnone%(f_equal length). rewrite length_fmap, length_seq, Hsize in Hnone.
      apply length_zero_iff_nil in Hnone. by rewrite Hnone.
    + intros Hnone. by rewrite Hnone in Hlen.
Qed.

Lemma update_establishes_bounds_example :
  updateParametersInContext
    (ConcertedRMSDForce.mk [vec 1 0 0; vec 5 0 0] [0; 0])
    (ConcertedRMSDForceImpl.mk [1] 1 [vec (-4) 0 0; vec 0 0 0])
  = Returned (ConcertedRMSDForceImpl.mk [0; 0] 2 [vec 0 0 0; vec 4 0 0])
  ∧ (∀ i, i ∈ [0; 0] → 0 ≤ i < Z.of_nat (length [vec 0 0 0; vec 4 0 0]))
  ∧ 2 = Z.of_nat (length [0; 0])
  ∧ length [vec 0 0 0; vec 4 0 0] = length [vec (-4) 0 0; vec 0 0 0]
  ∧ ([0; 0] = [] → [vec 0 0 0; vec 4 0 0] = []).
Proof.
  split; [reflexivity|].
  exact (update_establishes_bounds
           (ConcertedRMSDForce.mk [vec 1 0 0; vec 5 0 0] [0; 0])
           (ConcertedRMSDForceImpl.mk [1] 1 [vec (-4) 0 0; vec 0 0 0])
           (ConcertedRMSDForceImpl.mk [0; 0] 2 [vec 0 0 0; vec 4 0 0]) eq_refl).
Defined.

(** X8: once [initialize] returned for a system of [systemSize] particles,
    [setReferencePositions] with any other number of positions makes the next
    [updateParametersInContext] throw, and the state [initialize] left stays. *)
Theorem update_after_resized_reference systemSize owner self self' positions :
  initialize systemSize owner self = Returned self' →
  Z.of_nat (length positions) ≠ systemSize →
  updateParametersInContext (setReferencePositions positions owner) self'
  = Thrown "updateParametersInContext: The number of reference positions has changed"
           self'.
Proof.
  intros Hinit Hresized. apply update_Thrown. split_and!; [|done..].
  destruct (initialize_configured _ _ _ _ Hinit) as [_ _ _ Href]. simpl. lia.
Qed.

Lemma update_after_resized_reference_example :
  initialize 3 sampleOwner fresh = Returned sampleState
  ∧ Z.of_nat (length [vec 0 0 0; vec 2 0 0]) ≠ 3
  ∧ updateParametersInContext
      (setReferencePositions [vec 0 0 0; vec 2 0 0] sampleOwner) sampleState
    = Thrown sizeChanged sampleState.
Proof.
  assert (Z.of_nat (length [vec 0 0 0; vec 2 0 0]) ≠ 3) as Hresized by (simpl; lia).
  split; [reflexivity|]. split; [exact Hresized|].
  exact (update_after_resized_reference 3 sampleOwner fresh sampleState
           [vec 0 0 0; vec 2 0 0] eq_refl Hresized).
Defined.

(** ** Evaluation *)

Local Open Scope float_scope.

(** The last loop on a configured state stays inside the forces array, keeps
    its length, and leaves the entries outside the selection as they were. *)
Lemma writeForces_configured systemSize self cp U rmsd forces :
  configured systemSize self →
  Z.of_nat (length forces) = systemSize →
  length cp = length (particles self) →
  ∃ forces',
    writeForces self cp U rmsd (count self) forces = Some forces'
    ∧ length forces' = length forces
    ∧ (∀ j : nat, Z.of_nat j ∉ particles self → forces' !! j = forces !! j).
Proof.
  intros Hconf Hforces Hcp. rewrite (count_configured _ _ Hconf).
  destruct Hconf as [Hdistinct Hrange HN Href].
  destruct (writeForces_spec self cp U rmsd (seq 0 (length (particles self))) forces)
    as (forces' & Hwrite & Hlen & Hframe & _); [apply NoDup_seq|done| |].
  - intros k [_ Hk]%elem_of_seq. simpl in Hk.
    destruct (lookup_lt_is_Some_2 (particles self) k Hk) as [i Hi].
    pose proof (Hrange i (list_elem_of_lookup_2 _ _ _ Hi)) as Hi'.
    destruct (index_in_range (referencePos self) i) as [p Hp]; [by rewrite Href|].
    destruct (lookup_lt_is_Some_2 cp k) as [c Hc]; [by rewrite Hcp|].
    exists i, p, c. by rewrite Hforces.
  - exists forces'. split_and!; [done..|].
    intros j Hj. apply Hframe. intros k _ Hk. apply Hj.
    by eapply list_elem_of_lookup_2.
Qed.

(** X9: on a state as [initialize] leaves it, with positions and forces
    arrays of the size of the system, [computeForce] never indexes outside a
    vector: it returns, in either branch and also when [msd] is NaN, a forces
    array of the same length whose entries outside the selection are the
    caller's. *)
Theorem computeForce_stays_in_bounds eigen systemSize self positions forces :
  configured systemSize self →
  Z.of_nat (length positions) = systemSize →
  Z.of_nat (length forces) = systemSize →
  ∃ energy forces',
    computeForce eigen self positions forces = Returned (energy, forces')
    ∧ length forces' = length forces
    ∧ (∀ j : nat, Z.of_nat j ∉ particles self → forces' !! j = forces !! j).
Proof.
  intros Hconf Hpositions Hforces.
  destruct (evaluation_quantities eigen _ _ _ Hconf Hpositions)
    as (Q & selected & cr & HQ & _ & _ & _ & Hcp & _).
  rewrite (computeForce_quantities _ _ _ _ _ HQ).
  destruct (msd Q <? threshold); [by exists 0, forces|].
  destruct (writeForces_configured _ _ (centeredPos Q) (rotationMatrix (vectors Q))
              (PrimFloat.sqrt (msd Q)) forces Hconf Hforces Hcp)
    as (forces' & -> & Hlen & Hframe).
  by exists (PrimFloat.sqrt (msd Q)), forces'.
Qed.

Lemma computeForce_stays_in_bounds_example :
  configured 3 sampleState
  ∧ ∃ energy forces',
      computeForce diagonalEigen sampleState samplePositions sampleForces
        = Returned (energy, forces')
      ∧ length forces' = length sampleForces
      ∧ (∀ j : nat, Z.of_nat j ∉ particles sampleState →
           forces' !! j = sampleForces !! j).
Proof.
  destruct sample_configured as [_ Hconf]. split; [exact Hconf|].
  exact (computeForce_stays_in_bounds diagonalEigen 3 sampleState samplePositions
           sampleForces Hconf eq_refl eq_refl).
Defined.

Lemma sumAt_agree (v w : list Vec3.t) ps center :
  agreeOn ps v w → sumAt v ps center = sumAt w ps center.
Proof.
  revert center. induction ps as [|i ps IH]; intros center Hagree; [done|].
  simpl. rewrite (Hagree i) by left. destruct (index w i) as [p|]; [simpl|done].
  apply IH. intros j Hj. apply Hagree. by right.
Qed.

Lemma accumulate_ext term1 term2 ks acc :
  (∀ k, term1 k = term2 k) → accumulate term1 ks acc = accumulate term2 ks acc.
Proof.
  intros Hext. revert acc. induction ks as [|k ks IH]; intros acc; [done|].
  simpl. rewrite Hext. destruct (term2 k) as [x|]; [simpl|done]. apply IH.
Qed.

(** X10: [computeForce] reads the positions of the selected particles only:
    two position arrays that hold the same at every selected index give the
    same outcome, whatever they hold, and however long they are, elsewhere. *)
Theorem computeForce_reads_selected_positions eigen self positions1 positions2 forces :
  agreeOn (particles self) positions1 positions2 →
  computeForce eigen self positions1 forces = computeForce eigen self positions2 forces.
Proof.
  intros Hagree.
  assert (centeredPositions self positions1 = centeredPositions self positions2)
    as Hcentered.
  { unfold centeredPositions, centroid. rewrite (sumAt_agree _ _ _ _ Hagree).
    destruct (sumAt positions2 _ _) as [center|]; [simpl|done].
    apply mapM_ext. intros k. destruct (particles self !! k) as [i|] eqn:Hi; [simpl|done].
    by rewrite (Hagree i (list_elem_of_lookup_2 _ _ _ Hi)). }
  unfold computeForce. by rewrite Hcentered.
Qed.

Lemma computeForce_reads_selected_positions_example :
  agreeOn (particles sampleState) samplePositions
          [vec 3 0 0; vec 7 0 0; vec 100 (-50) 25; vec 4 4 4]
  ∧ computeForce diagonalEigen sampleState samplePositions sampleForces
    = computeForce diagonalEigen sampleState
        [vec 3 0 0; vec 7 0 0; vec 100 (-50) 25; vec 4 4 4] sampleForces.
Proof.
  assert (agreeOn (particles sampleState) samplePositions
            [vec 3 0 0; vec 7 0 0; vec 100 (-50) 25; vec 4 4 4]) as Hagree.
  { intros i [->|[->|Hi]%elem_of_cons]%elem_of_cons; [reflexivity..|].
    by inversion Hi. }
  split; [exact Hagree|].
  exact (computeForce_reads_selected_positions diagonalEigen sampleState _ _
           sampleForces Hagree).
Defined.

Lemma writeForces_agree self1 self2 cp U rmsd ks forces :
  particles self1 = particles self2 →
  numParticles self1 = numParticles self2 →
  agreeOn (particles self1) (referencePos self1) (referencePos self2) →
  writeForces self1 cp U rmsd ks forces = writeForces self2 cp U rmsd ks forces.
Proof.
  intros Hps HN Hagree. revert forces.
  induction ks as [|k ks IH]; intros forces; [done|]. simpl. rewrite <- Hps.
  destruct (particles self1 !! k) as [i|] eqn:Hi; [simpl|done].
  rewrite <- (Hagree i (list_elem_of_lookup_2 _ _ _ Hi)).
  destruct (index (referencePos self1) i) as [p|]; [simpl|done].
  destruct (cp !! k) as [c|]; [simpl|done].
  unfold forceOn. rewrite <- HN.
  destruct (assign forces i _) as [forces'|]; [simpl|done]. apply IH.
Qed.

(** X11: [computeForce] reads the stored reference positions of the selected
    particles only: two states with the same selection and count whose
    reference positions hold the same at every selected index give the same
    outcome. *)
Theorem computeForce_reads_selected_reference eigen self1 self2 positions forces :
  particles self1 = particles self2 →
  numParticles self1 = numParticles self2 →
  agreeOn (particles self1) (referencePos self1) (referencePos self2) →
  computeForce eigen self1 positions forces = computeForce eigen self2 positions forces.
Proof.
  intros Hps HN Hagree.
  assert (count self1 = count self2) as Hcount by (unfold count; by rewrite HN).
  assert (centeredPositions self1 positions = centeredPositions self2 positions)
    as Hcentered.
  { unfold centeredPositions, centroid. by rewrite Hps, HN, Hcount. }
  assert (∀ (g : Vec3.t → Vec3.t → double) (cp : list Vec3.t),
    accumulate (λ k, idx ← particles self1 !! k; c ← cp !! k;
                     r ← index (referencePos self1) idx; Some (g c r)) (count self1) 0
    = accumulate (λ k, idx ← particles self2 !! k; c ← cp !! k;
                       r ← index (referencePos self2) idx; Some (g c r)) (count self2) 0)
    as Hloop.
  { intros g cp. rewrite Hcount. apply accumulate_ext. intros k. rewrite <- Hps.
    destruct (particles self1 !! k) as [i|] eqn:Hi; [simpl|done].
    by rewrite (Hagree i (list_elem_of_lookup_2 _ _ _ Hi)). }
  assert (∀ cp i j, correlation self1 cp i j = correlation self2 cp i j) as Hcorr.
  { intros cp i j. apply (Hloop (λ c r, Vec3.get c i * Vec3.get r j)). }
  assert (∀ cp, sumOfSquares self1 cp = sumOfSquares self2 cp) as Hsquares.
  { intros cp. apply (Hloop (λ c r, Vec3.dot c c + Vec3.dot r r)). }
  unfold computeForce, correlationMatrix, meanSquare. rewrite Hcentered.
  destruct (centeredPositions self2 positions) as [cp|]; [simpl|done].
  rewrite !Hcorr, Hsquares, HN, Hcount.
  destruct (correlation self2 cp 0 0) as [r00|]; [simpl|done].
  destruct (correlation self2 cp 0 1) as [r01|]; [simpl|done].
  destruct (correlation self2 cp 0 2) as [r02|]; [simpl|done].
  destruct (correlation self2 cp 1 0) as [r10|]; [simpl|done].
  destruct (correlation self2 cp 1 1) as [r11|]; [simpl|done].
  destruct (correlation self2 cp 1 2) as [r12|]; [simpl|done].
  destruct (correlation self2 cp 2 0) as [r20|]; [simpl|done].
  destruct (correlation self2 cp 2 1) as [r21|]; [simpl|done].
  destruct (correlation self2 cp 2 2) as [r22|]; [simpl|done].
  destruct (eigen _) as [values vectors].
  destruct (sumOfSquares self2 cp) as [squares|]; [simpl|done].
  destruct (_ <? threshold); [done|].
  by rewrite (writeForces_agree self1 self2 _ _ _ _ _ Hps HN Hagree).
Qed.

Lemma computeForce_reads_selected_reference_example :
  agreeOn (particles sampleState) (referencePos sampleState)
          [vec (-1) 0 0; vec 1 0 0; vec 0 0 0]
  ∧ computeForce diagonalEigen sampleState samplePositions sampleForces
    = computeForce diagonalEigen
        (ConcertedRMSDForceImpl.mk [1; 0]%Z 2 [vec (-1) 0 0; vec 1 0 0; vec 0 0 0])
        samplePositions sampleForces.
Proof.
  assert (agreeOn (particles sampleState) (referencePos sampleState)
            [vec (-1) 0 0; vec 1 0 0; vec 0 0 0]) as Hagree.
  { intros i [->|[->|Hi]%elem_of_cons]%elem_of_cons; [reflexivity..|].
    by inversion Hi. }
  split; [exact Hagree|].
  exact (computeForce_reads_selected_reference diagonalEigen sampleState
           (ConcertedRMSDForceImpl.mk [1; 0]%Z 2 [vec (-1) 0 0; vec 1 0 0; vec 0 0 0])
           samplePositions sampleForces eq_refl eq_refl Hagree).
Defined.

(** X12: the F matrix is symmetric, entry for entry and for every [R]: each
    entry below the diagonal is the same expression as the one above it, so
    what JAMA is given is always a symmetric matrix. *)
Theorem quaternionMatrix_symmetric (R : Mat3) (i j : nat) :
  quaternionMatrix R i j = quaternionMatrix R j i.
Proof. destruct i as [|[|[|i]]], j as [|[|[|j]]]; reflexivity. Qed.

Lemma mul_opp_opp (a b : double) : - a * - b = a * b.
Proof.
  apply Prim2SF_inj. rewrite !mul_spec, !opp_spec. unfold SF64mul, SFmul.
  destruct (Prim2SF a) as [sa|sa| |sa ma ea], (Prim2SF b) as [sb|sb| |sb mb eb];
    simpl; rewrite ?xorb_negb_negb; reflexivity.
Qed.

Lemma rotationMatrix_negated (vectors : Array2D) (i j : nat) :
  rotationMatrix (λ r c, - vectors r c) i j = rotationMatrix vectors i j.
Proof. unfold rotationMatrix. cbv zeta. by rewrite !mul_opp_opp. Qed.

Lemma writeForces_rotation self cp (U1 U2 : Mat3) rmsd ks forces :
  (∀ i j, U1 i j = U2 i j) →
  writeForces self cp U1 rmsd ks forces = writeForces self cp U2 rmsd ks forces.
Proof.
  intros HU. revert forces. induction ks as [|k ks IH]; intros forces; [done|]. simpl.
  destruct (particles self !! k) as [i|]; [simpl|done].
  destruct (index (referencePos self) i) as [p|]; [simpl|done].
  destruct (cp !! k) as [c|]; [simpl|done].
  assert (forceOn self U1 rmsd c p = forceOn self U2 rmsd c p) as ->.
  { unfold forceOn, rotatedRef. cbv zeta. by rewrite !HU. }
  destruct (assign forces i _) as [forces'|]; [simpl|done]. apply IH.
Qed.

(** X13: the sign of the eigenvector does not matter: an eigensolver that
    returns every eigenvector with the other sign gives the same outcome,
    value and forces, since the rotation matrix is made of products of two
    components of the eigenvector. *)
Theorem computeForce_eigenvector_sign eigen self positions forces :
  computeForce (negatedVectors eigen) self positions forces
  = computeForce eigen self positions forces.
Proof.
  unfold computeForce, negatedVectors.
  destruct (centeredPositions self positions) as [cp|]; [simpl|done].
  destruct (correlationMatrix self cp) as [Rm|]; [simpl|done].
  destruct (eigen (quaternionMatrix Rm)) as [values vectors].
  destruct (sumOfSquares self cp) as [squares|]; [simpl|done].
  destruct (_ <? threshold); [done|].
  by rewrite (writeForces_rotation self cp _ _ _ _ _ (rotationMatrix_negated vectors)).
Qed.

(** X14: with an empty stored selection and [numParticles] 0, the state
    [initialize] leaves for an owner with an empty selection,
    [computeForce] reads no position and writes no force, and when the
    eigensolver returns 0 as the last eigenvalue of the zero matrix, [msd] is
    0/0 and the value returned is NaN. *)
Theorem computeForce_empty_selection eigen referencePos positions forces :
  (eigen (quaternionMatrix zeroCorrelation)).1 3%nat = 0 →
  computeForce eigen (ConcertedRMSDForceImpl.mk [] 0 referencePos) positions forces
  = Returned (nan, forces).
Proof.
  intros Hlast. unfold computeForce. simpl.
  change (mat3 0 0 0 0 0 0 0 0 0) with zeroCorrelation.
  destruct (eigen (quaternionMatrix zeroCorrelation)) as [values vectors].
  simpl in Hlast. unfold meanSquare. simpl. rewrite Hlast. reflexivity.
Qed.

Lemma computeForce_empty_selection_example :
  initialize 1 (ConcertedRMSDForce.mk [vec 1 2 3] []) fresh
    = Returned (ConcertedRMSDForceImpl.mk [] 0 [vec nan nan nan])
  ∧ (diagonalEigen (quaternionMatrix zeroCorrelation)).1 3%nat = 0
  ∧ computeForce diagonalEigen (ConcertedRMSDForceImpl.mk [] 0 [vec nan nan nan])
      [vec 1 2 3] [vec 7 7 7]
    = Returned (nan, [vec 7 7 7]).
Proof.
  split; [reflexivity|]. split; [reflexivity|].
  exact (computeForce_empty_selection diagonalEigen [vec nan nan nan] [vec 1 2 3]
           [vec 7 7 7] eq_refl).
Defined.

(** ** Evaluation after [updateParametersInContext] *)

Lemma accumulate_in_bounds term ks acc :
  (∀ k, k ∈ ks → is_Some (term k)) → is_Some (accumulate term ks acc).
Proof.
  revert acc. induction ks as [|k ks IH]; intros acc Hall; simpl; [by eexists|].
  destruct (Hall k) as [x ->]; [left|]. simpl. apply IH. intros k' Hk'. apply Hall. by right.
Qed.

Lemma writeForces_in_bounds self cp U rmsd ks forces :
  (∀ k, k ∈ ks → ∃ i p c,
      particles self !! k = Some i ∧ index (referencePos self) i = Some p
      ∧ cp !! k = Some c ∧ (0 ≤ i < Z.of_nat (length forces))%Z) →
  ∃ forces', writeForces self cp U rmsd ks forces = Some forces'
    ∧ length forces' = length forces.
Proof.
  revert forces. induction ks as [|k ks IH]; intros forces Hall; simpl; [by exists forces|].
  destruct (Hall k) as (i & p & c & -> & Hp & -> & Hbound); [left|]. simpl.
  rewrite Hp. simpl. unfold assign. rewrite decide_True by done. simpl.
  destruct (IH (<[Z.to_nat i := forceOn self U rmsd c p]> forces))
    as (forces' & -> & Hlen).
  { intros k' Hk'. destruct (Hall k') as (i' & p' & c' & ? & ? & ? & ?); [by right|].
    exists i', p', c'. by rewrite length_insert. }
  exists forces'. by rewrite length_insert in Hlen.
Qed.

(** Evaluation stays inside its vectors as soon as every stored index is a
    position of the stored reference and is counted in [numParticles];
    the indices need not be distinct. *)
Lemma computeForce_bounded eigen self positions forces :
  (∀ i, i ∈ particles self → (0 ≤ i < Z.of_nat (length (referencePos self)))%Z) →
  numParticles self = Z.of_nat (length (particles self)) →
  length positions = length (referencePos self) →
  length forces = length (referencePos self) →
  ∃ energy forces',
    computeForce eigen self positions forces = Returned (energy, forces')
    ∧ length forces' = length forces.
Proof.
  intros Hrange HN Hpositions Hforces.
  assert (count self = seq 0 (length (particles self))) as Hcount.
  { unfold count. by rewrite HN, Nat2Z.id. }
  destruct (sumAt_in_range positions (particles self) Vec3.zero) as [total Htotal].
  { intros i Hi. rewrite Hpositions. by apply Hrange. }
  assert (∀ k, k ∈ count self → ∃ i, particles self !! k = Some i
            ∧ (0 ≤ i < Z.of_nat (length (referencePos self)))%Z) as Hselected.
  { intros k Hk. rewrite Hcount in Hk. apply elem_of_seq in Hk as [_ Hk]. simpl in Hk.
    destruct (lookup_lt_is_Some_2 (particles self) k Hk) as [i Hi].
    exists i. split; [done|]. apply Hrange. by eapply list_elem_of_lookup_2. }
  destruct (centeredPositions self positions) as [cp|] eqn:Hcp; last first.
  { exfalso. unfold centeredPositions, centroid in Hcp. rewrite Htotal in Hcp.
    simpl in Hcp. apply mapM_None, Exists_exists in Hcp as (k & Hk & Hnone).
    destruct (Hselected k) as (i & Hi & Hbound); [done|].
    rewrite Hi in Hnone. simpl in Hnone.
    destruct (index_in_range positions i) as [p Hp]; [by rewrite Hpositions|].
    by rewrite Hp in Hnone. }
  assert (length cp = length (particles self)) as Hlength.
  { unfold centeredPositions, centroid in Hcp. rewrite Htotal in Hcp. simpl in Hcp.
    apply mapM_Some, Forall2_length in Hcp. by rewrite <- Hcp, Hcount, length_seq. }
  assert (∀ k, k ∈ count self → ∃ i p c,
    particles self !! k = Some i ∧ index (referencePos self) i = Some p
    ∧ cp !! k = Some c ∧ (0 ≤ i < Z.of_nat (length forces))%Z) as Hall.
  { intros k Hk. destruct (Hselected k Hk) as (i & Hi & Hbound).
    destruct (index_in_range (referencePos self) i Hbound) as [p Hp].
    destruct (lookup_lt_is_Some_2 cp k) as [c Hc].
    { rewrite Hlength. by apply lookup_lt_Some in Hi. }
    exists i, p, c. by rewrite Hforces. }
  assert (∀ (g : Vec3.t → Vec3.t → double),
    is_Some (accumulate (λ k, idx ← particles self !! k; c ← cp !! k;
                              r ← index (referencePos self) idx; Some (g c r))
                        (count self) 0)) as Hloop.
  { intros g. apply accumulate_in_bounds. intros k Hk.
    destruct (Hall k Hk) as (i & p & c & -> & Hp & -> & _). simpl. rewrite Hp. by eexists. }
  assert (∀ i j, is_Some (correlation self cp i j)) as Hcorr.
  { intros i j. apply (Hloop (λ c r, Vec3.get c i * Vec3.get r j)). }
  destruct (Hloop (λ c r, Vec3.dot c c + Vec3.dot r r)) as [squares Hsquares].
  change (sumOfSquares self cp = Some squares) in Hsquares.
  unfold computeForce, correlationMatrix. rewrite Hcp. simpl.
  destruct (Hcorr 0 0)%nat as [r00 ->]. destruct (Hcorr 0 1)%nat as [r01 ->].
  destruct (Hcorr 0 2)%nat as [r02 ->]. destruct (Hcorr 1 0)%nat as [r10 ->].
  destruct (Hcorr 1 1)%nat as [r11 ->]. destruct (Hcorr 1 2)%nat as [r12 ->].
  destruct (Hcorr 2 0)%nat as [r20 ->]. destruct (Hcorr 2 1)%nat as [r21 ->].
  destruct (Hcorr 2 2)%nat as [r22 ->]. simpl.
  destruct (eigen _) as [values vectors]. rewrite Hsquares. simpl.
  destruct (_ <? threshold); [by exists 0, forces|].
  destruct (writeForces_in_bounds self cp (rotationMatrix vectors)
              (PrimFloat.sqrt (meanSquare self squares (values 3%nat)))
              (count self) forces Hall) as (forces' & -> & Hlen).
  by eexists _, forces'.
Qed.

(** X15: after a call of [updateParametersInContext] that returned, with
    duplicated indices or not, [computeForce] on positions and forces arrays
    of the length of the reference never indexes outside a vector: it
    returns, with a forces array of the same length. *)
Theorem computeForce_after_update eigen owner self self' positions forces :
  updateParametersInContext owner self = Returned self' →
  length positions = length (referencePos self') →
  length forces = length (referencePos self') →
  ∃ energy forces',
    computeForce eigen self' positions forces = Returned (energy, forces')
    ∧ length forces' = length forces.
Proof.
  intros Hupdate Hpositions Hforces. apply computeForce_bounded; [| |done..].
  - apply update_Returned in Hupdate as (Hsize & total & Hsum & ->). simpl.
    rewrite length_fmap. by apply (sumAt_Some_range _ _ _ _ Hsum).
  - by apply update_Returned in Hupdate as (Hsize & total & Hsum & ->).
Qed.

Lemma computeForce_after_update_example :
  updateParametersInContext
    (ConcertedRMSDForce.mk [vec 1 0 0; vec 5 0 0] [0; 0]%Z)
    (ConcertedRMSDForceImpl.mk [1]%Z 1 [vec (-4) 0 0; vec 0 0 0])
  = Returned (ConcertedRMSDForceImpl.mk [0; 0]%Z 2 [vec 0 0 0; vec 4 0 0])
  ∧ ∃ energy forces',
      computeForce diagonalEigen
        (ConcertedRMSDForceImpl.mk [0; 0]%Z 2 [vec 0 0 0; vec 4 0 0])
        [vec 3 0 0; vec 7 0 0] [vec 7 7 7; vec 8 8 8]
      = Returned (energy, forces')
      ∧ length forces' = length [vec 7 7 7; vec 8 8 8].
Proof.
  split; [reflexivity|].
  exact (computeForce_after_update diagonalEigen
           (ConcertedRMSDForce.mk [vec 1 0 0; vec 5 0 0] [0; 0]%Z)
           (ConcertedRMSDForceImpl.mk [1]%Z 1 [vec (-4) 0 0; vec 0 0 0])
           (ConcertedRMSDForceImpl.mk [0; 0]%Z 2 [vec 0 0 0; vec 4 0 0])
           [vec 3 0 0; vec 7 0 0] [vec 7 7 7; vec 8 8 8] eq_refl eq_refl eq_refl).
Defined.

(** ** The owner's setters and the next update *)

Local Open Scope Z_scope.

(** X16: once [initialize] returned for a system of [systemSize] particles,
    [setParticles] with an empty selection followed by
    [updateParametersInContext] selects every particle of the system: the
    stored selection is 0, 1, ..., systemSize-1 and the count is
    [systemSize]. *)
Theorem update_selects_whole_system systemSize owner self self' :
  initialize systemSize owner self = Returned self' →
  ∃ self'',
    updateParametersInContext (setParticles [] owner) self' = Returned self''
    ∧ particles self'' = Z.of_nat <$> seq 0 (Z.to_nat systemSize)
    ∧ numParticles self'' = systemSize.
Proof.
  intros Hinit.
  destruct (initialize_configured _ _ _ _ Hinit) as [_ _ _ Href].
  assert (length (referencePos self') = length (getReferencePositions owner)) as Hsize.
  { apply initialize_Returned in Hinit as (? & _ & total & _ & ->). simpl.
    by rewrite length_fmap. }
  assert (updatedParticles (setParticles [] owner) self'
          = Z.of_nat <$> seq 0 (Z.to_nat systemSize)) as Hall.
  { unfold updatedParticles, pushAll. simpl. by rewrite <- Href, Nat2Z.id. }
  destruct (sumAt_in_range (getReferencePositions owner)
              (Z.of_nat <$> seq 0 (Z.to_nat systemSize)) Vec3.zero) as [total Hsum].
  { intros i (k & -> & Hk%elem_of_seq)%list_elem_of_fmap. rewrite <- Hsize. lia. }
  eexists. split; [apply update_Returned; split; [done|]|].
  - exists total. by rewrite Hall.
  - simpl. rewrite length_fmap, length_seq. split; [done|]. lia.
Qed.

Lemma update_selects_whole_system_example :
  initialize 3 sampleOwner fresh = Returned sampleState
  ∧ ∃ self'',
      updateParametersInContext (setParticles [] sampleOwner) sampleState
        = Returned self''
      ∧ particles self'' = [0; 1; 2]
      ∧ numParticles self'' = 3.
Proof.
  split; [reflexivity|].
  exact (update_selects_whole_system 3 sampleOwner fresh sampleState eq_refl).
Defined.
